(** * yubiauth.util.static: file and directory responders

    A shallow embedding of [yubiauth/util/static.py] (the static file
    serving layer taken over from WebOb): the byte-range iterator
    [FileIter.app_iter_range], the file responder [FileApp.__call__] and the
    directory responder [DirectoryApp.__call__], followed by the properties
    of the specification that concern them.

    The Python runtime the module sits on is modelled explicitly, as
    Python 3 behaves:
    - a binary file object (what [open(name, 'rb')] returns) is a record
      holding the bytes of the file, the read position and the closed
      flag;
    - a generator is a state machine advanced by [next];
    - the operating system is a record of [os.stat] and [open] outcomes;
    - [os.path] is the POSIX flavour ([os.path.sep = "/"]). *)

From Stdlib Require Import String Ascii.
From Stdlib Require Import ZArith List Bool Lia.
From Stdlib Require Import Init.Byte.
Import ListNotations.

Open Scope string_scope.
Open Scope list_scope.
Open Scope Z_scope.

(* ================================================================= *)
(** ** Exceptions *)

(** The exception classes that matter to this module.  [IOError] and
    [OSError] are the two classes the [except] clauses of the source name;
    the others stand for everything those clauses let through. *)
Inductive exn_class : Type :=
| IOError
| OSError
| ValueError
| TypeError
| AssertionError.

Record exn : Type := mk_exn {
  exn_cls : exn_class;
  exn_str : string          (* str(e) *)
}.

(** [except (IOError, OSError) as e] *)
Definition is_io_or_os_error (e : exn) : bool :=
  match exn_cls e with
  | IOError | OSError => true
  | ValueError | TypeError | AssertionError => false
  end.

(** The outcome of a call that either raises or returns. *)
Inductive result (A : Type) : Type :=
| Raise (e : exn)
| Return (a : A).
Arguments Raise {A} e.
Arguments Return {A} a.

(* ================================================================= *)
(** ** Binary file objects *)

Module PyFile.

Record file : Type := mk_file {
  data   : list byte;     (* the bytes of the underlying file *)
  pos    : nat;           (* current read position *)
  closed : bool
}.

Definition read_closed_error : exn :=
  mk_exn ValueError "read of closed file".

Definition seek_closed_error : exn :=
  mk_exn ValueError "seek of closed file".

Definition read_length_error : exn :=
  mk_exn ValueError "read length must be non-negative or -1".

Definition invalid_argument : exn :=
  mk_exn OSError "[Errno 22] Invalid argument".

(** [open(filename, 'rb')] on readable contents. *)
Definition opened (contents : list byte) : file :=
  mk_file contents 0 false.

(** [f.seek(offset)]: absolute repositioning.  Seeking past the end of the
    file is allowed; a negative offset is refused by the OS. *)
Definition seek (f : file) (offset : Z) : result file :=
  if closed f then Raise seek_closed_error
  else if offset <? 0 then Raise invalid_argument
  else Return (mk_file (data f) (Z.to_nat offset) false).

(** What is left between the read position and the end of the file. *)
Definition remainder (f : file) : list byte := skipn (pos f) (data f).

(** [f.read(size)]: at most [size] bytes from the read position, all the
    remaining bytes when [size] is [-1], the empty bytes object at end of
    file.  A size below [-1] is refused, before the file is looked at. *)
Definition read (f : file) (size : Z) : result (list byte * file) :=
  if size <? -1 then Raise read_length_error
  else if closed f then Raise read_closed_error
  else
    let chunk :=
      if size <? 0 then remainder f
      else firstn (Z.to_nat size) (remainder f) in
    Return (chunk, mk_file (data f) (pos f + length chunk) false).

(** [f.close()]: idempotent. *)
Definition close (f : file) : file := mk_file (data f) (pos f) true.

End PyFile.

(* ================================================================= *)
(** ** FileIter *)

Module FileIter.
Import PyFile.

(** What one call of [next()] on the generator gives its consumer. *)
Inductive signal : Type :=
| Yield (chunk : list byte)
| StopIteration
| Raised (e : exn).

(** The points at which the generator returned by [app_iter_range] can be
    suspended. *)
Inductive gen : Type :=
| Created (seek limit : option Z) (block_size : Z)
    (* the body has not started *)
| Suspended (limit : option Z) (block_size : Z) (len_data : nat)
    (* at [yield data], inside the [try] *)
| Finished.

(** [app_iter_range(seek=None, limit=None, block_size=1<<16)] creates the
    generator; nothing runs until the first [next()]. *)
Definition default_block_size : Z := Z.shiftl 1 16.

Definition app_iter_range (seek limit : option Z) (block_size : Z) : gen :=
  Created seek limit block_size.

(** [__iter__ = app_iter_range] *)
Definition __iter__ : gen := app_iter_range None None default_block_size.

(** The truth value of [seek] in [if seek:]. *)
Definition truthy (seek : option Z) : bool :=
  match seek with
  | None => false
  | Some s => negb (s =? 0)
  end.

(** [min(block_size, limit) if limit is not None else block_size] *)
Definition read_size (block_size : Z) (limit : option Z) : Z :=
  match limit with
  | Some l => Z.min block_size l
  | None => block_size
  end.

(** [limit -= seek] under [if limit is not None] *)
Definition adjust (limit : option Z) (seek : Z) : option Z :=
  match limit with
  | Some l => Some (l - seek)
  | None => None
  end.

(** From the top of [while True] to the next [yield], [return] or
    exception; the [finally] clause closes the file on the last two. *)
Definition loop_top (limit : option Z) (block_size : Z) (f : file)
  : signal * gen * file :=
  match read f (read_size block_size limit) with
  | Raise e => (Raised e, Finished, close f)
  | Return (chunk, f') =>
      match chunk with
      | [] => (StopIteration, Finished, close f')
      | _ :: _ => (Yield chunk, Suspended limit block_size (length chunk), f')
      end
  end.

(** Resuming after [yield data]. *)
Definition resume (limit : option Z) (block_size : Z) (len_data : nat)
    (f : file) : signal * gen * file :=
  match limit with
  | Some l =>
      let l' := l - Z.of_nat len_data in
      if l' <=? 0 then (StopIteration, Finished, close f)
      else loop_top (Some l') block_size f
  | None => loop_top None block_size f
  end.

(** The first [next()]: the seek happens before the [try], so a failing
    seek leaves the file as it is. *)
Definition start (seek limit : option Z) (block_size : Z) (f : file)
  : signal * gen * file :=
  match seek with
  | Some s =>
      if truthy seek then
        match PyFile.seek f s with
        | Raise e => (Raised e, Finished, f)
        | Return f' => loop_top (adjust limit s) block_size f'
        end
      else loop_top limit block_size f
  | None => loop_top limit block_size f
  end.

(** [next(g)] on the generator [g] reading the file object [f]. *)
Definition next (g : gen) (f : file) : signal * gen * file :=
  match g with
  | Created seek limit block_size => start seek limit block_size f
  | Suspended limit block_size n => resume limit block_size n f
  | Finished => (StopIteration, Finished, f)
  end.

(** How a consumer's iteration over the generator ended. *)
Inductive ending : Type :=
| Exhausted               (* StopIteration *)
| Failed (e : exn)        (* an exception came out of [next()] *)
| Pending.                (* the consumer stopped pulling *)

Record run : Type := mk_run {
  chunks   : list (list byte);
  end_of   : ending;
  gen_of   : gen;
  file_of  : file
}.

(** A consumer pulling at most [fuel] times: [for chunk in g: ...]. *)
Fixpoint drain (fuel : nat) (g : gen) (f : file) : run :=
  match fuel with
  | O => mk_run [] Pending g f
  | S fuel' =>
      match next g f with
      | (Yield c, g', f') =>
          let r := drain fuel' g' f' in
          mk_run (c :: chunks r) (end_of r) (gen_of r) (file_of r)
      | (StopIteration, g', f') => mk_run [] Exhausted g' f'
      | (Raised e, g', f') => mk_run [] (Failed e) g' f'
      end
  end.

(** Each chunk yielded is non-empty and comes from the file, so
    [length (data f) + 1] pulls always reach the end. *)
Definition iterate (seek limit : option Z) (block_size : Z) (f : file) : run :=
  drain (S (length (data f))) (app_iter_range seek limit block_size) f.

Definition total_bytes (r : run) : nat := length (concat (chunks r)).

(** What a consumer does with the outcome of one [next()]: keep pulling
    after a chunk, stop otherwise.  [drain (S k) g f] is
    [follow k (next g f)]. *)
Definition follow (fuel : nat) (x : signal * gen * file) : run :=
  match x with
  | (Yield c, g', f') =>
      let r := drain fuel g' f' in
      mk_run (c :: chunks r) (end_of r) (gen_of r) (file_of r)
  | (StopIteration, g', f') => mk_run [] Exhausted g' f'
  | (Raised e, g', f') => mk_run [] (Failed e) g' f'
  end.

(** A seek is legal when it is omitted or not negative. *)
Definition legal_seek (seek : option Z) : Prop :=
  match seek with
  | None => True
  | Some s => 0 <= s
  end.

(** The budget the loop starts with. *)
Definition budget (seek limit : option Z) : option Z :=
  match seek with
  | Some s => if s =? 0 then limit else adjust limit s
  | None => limit
  end.

(** The sizes the loop asks for are accepted by [read]: the block size
    and the budget the loop starts with are [-1] or more. *)
Definition sizes_accepted (bs : Z) (limit : option Z) : Prop :=
  -1 <= bs /\ match limit with Some l => -1 <= l | None => True end.

(** [g.close()]: a generator abandoned at its [yield] runs the [finally]
    clause; one that never started has nothing to run. *)
Definition gen_close (g : gen) (f : file) : gen * file :=
  match g with
  | Created _ _ _ => (Finished, f)
  | Suspended _ _ _ => (Finished, close f)
  | Finished => (Finished, f)
  end.

End FileIter.

(* ================================================================= *)
(** ** The byte-range algorithm as the specification words it *)

(** Section 4.2 of the specification, as a big-step relation between the
    file object before the iteration, the chunks produced and the file
    object after the last read.  It is compared with the generator of
    [FileIter] below. *)
Module RangeSpec.
Import PyFile.

Section Loop.
Variable block_size : Z.

(** "each iteration reads min(block_size, limit) bytes if limit is set,
    else block_size bytes; an empty read terminates the sequence;
    otherwise yield the chunk, decrement limit by the chunk length if
    bounded, and terminate once limit <= 0" *)
Inductive read_loop : option Z -> file -> list (list byte) -> file -> Prop :=
| loop_unbounded_eof f f' :
    read f block_size = Return ([], f') ->
    read_loop None f [] f'
| loop_unbounded_chunk f c f' cs f'' :
    read f block_size = Return (c, f') ->
    c <> [] ->
    read_loop None f' cs f'' ->
    read_loop None f (c :: cs) f''
| loop_bounded_eof l f f' :
    read f (Z.min block_size l) = Return ([], f') ->
    read_loop (Some l) f [] f'
| loop_bounded_last l f c f' :
    read f (Z.min block_size l) = Return (c, f') ->
    c <> [] ->
    l - Z.of_nat (length c) <= 0 ->
    read_loop (Some l) f [c] f'
| loop_bounded_chunk l f c f' cs f'' :
    read f (Z.min block_size l) = Return (c, f') ->
    c <> [] ->
    0 < l - Z.of_nat (length c) ->
    read_loop (Some (l - Z.of_nat (length c))) f' cs f'' ->
    read_loop (Some l) f (c :: cs) f''.

(** "If seek is set and non-zero, reposition the file to that offset; if
    limit is also set, reduce limit by seek" *)
Inductive range : option Z -> option Z -> file -> list (list byte) -> file -> Prop :=
| range_unset limit f cs f' :
    read_loop limit f cs f' ->
    range None limit f cs f'
| range_zero limit f cs f' :
    read_loop limit f cs f' ->
    range (Some 0) limit f cs f'
| range_unbounded s f f0 cs f' :
    s <> 0 ->
    seek f s = Return f0 ->
    read_loop None f0 cs f' ->
    range (Some s) None f cs f'
| range_bounded s l f f0 cs f' :
    s <> 0 ->
    seek f s = Return f0 ->
    read_loop (Some (l - s)) f0 cs f' ->
    range (Some s) (Some l) f cs f'.
End Loop.

End RangeSpec.

(* ================================================================= *)
(** ** Strings and POSIX paths *)

Module PyStr.

(** [s.startswith(prefix)] *)
Definition startswith (s prefix : string) : bool := String.prefix prefix s.

(** [s.endswith(suffix)] *)
Definition endswith (s suffix : string) : bool :=
  let n := String.length s in
  let m := String.length suffix in
  if (m <=? n)%nat then String.eqb (substring (n - m) m s) suffix else false.

Fixpoint mem (c : ascii) (chars : string) : bool :=
  match chars with
  | EmptyString => false
  | String d chars' => Ascii.eqb c d || mem c chars'
  end.

(** [s.lstrip(chars)]: drops the leading characters that occur in
    [chars]. *)
Fixpoint lstrip (s chars : string) : string :=
  match s with
  | EmptyString => EmptyString
  | String c s' => if mem c chars then lstrip s' chars else s
  end.

(** [s.split(sep)] for a one-character separator: never the empty list. *)
Fixpoint split (s : string) (sep : ascii) : list string :=
  match s with
  | EmptyString => [EmptyString]
  | String c s' =>
      if Ascii.eqb c sep then EmptyString :: split s' sep
      else match split s' sep with
           | w :: ws => String c w :: ws
           | [] => [String c EmptyString]
           end
  end.

(** [sep.join(words)] *)
Definition join (sep : string) (words : list string) : string :=
  String.concat sep words.

(** [sep * n] *)
Fixpoint times (sep : string) (n : nat) : string :=
  match n with
  | O => EmptyString
  | S n' => (sep ++ times sep n')%string
  end.

End PyStr.

(** [posixpath], the [os.path] of a POSIX system. *)
Module PosixPath.
Import PyStr.

Definition sep : string := "/".
Definition sep_char : ascii := "/"%char.

(** [isabs(s)] *)
Definition isabs (s : string) : bool := startswith s sep.

(** [join(a, b)] with one component after [a]. *)
Definition join (a b : string) : string :=
  if startswith b sep then b
  else if String.eqb a "" || endswith a sep then (a ++ b)%string
  else (a ++ sep ++ b)%string.

(** POSIX allows one or two initial slashes and treats three or more as
    one. *)
Definition initial_slashes (path : string) : nat :=
  if startswith path sep then
    if startswith path (times sep 2) && negb (startswith path (times sep 3))
    then 2%nat else 1%nat
  else 0%nat.

Definition is_nil {A : Type} (l : list A) : bool :=
  match l with
  | [] => true
  | _ :: _ => false
  end.

(** The body of the loop over the components in [normpath]. *)
Definition norm_step (slashes : nat) (new_comps : list string)
    (comp : string) : list string :=
  if String.eqb comp "" || String.eqb comp "." then new_comps
  else if negb (String.eqb comp "..")
          || ((slashes =? 0)%nat && is_nil new_comps)
          || (negb (is_nil new_comps) && String.eqb (last new_comps "") "..")
  then new_comps ++ [comp]
  else removelast new_comps.

Definition normpath (path : string) : string :=
  if String.eqb path "" then "."
  else
    let slashes := initial_slashes path in
    let comps := fold_left (norm_step slashes) (split path sep_char) [] in
    let path' := PyStr.join sep comps in
    let path' := if (slashes =? 0)%nat then path'
                 else (times sep slashes ++ path')%string in
    if String.eqb path' "" then "." else path'.

(** [abspath(path)] in the working directory [cwd]. *)
Definition abspath (cwd path : string) : string :=
  normpath (if isabs path then path else join cwd path).

End PosixPath.

(** A path component that [normpath] keeps as it is: not empty, not
    ["."], not [".."], and without a separator inside. *)
Definition plain (comp : string) : Prop :=
  comp <> "" /\ comp <> "." /\ comp <> ".."
  /\ PyStr.mem PosixPath.sep_char comp = false.

(* ================================================================= *)
(** ** The operating system and the interpreter *)

(** The file type bits of [st_mode]. *)
Inductive file_type : Type :=
| S_IFREG
| S_IFDIR
| S_IFOTHER.

Record stat_result : Type := mk_stat {
  st_mode  : file_type;
  st_size  : Z;
  st_mtime : Z
}.

(** Keyword arguments: a dict from names to [None], strings or numbers. *)
Inductive value : Type :=
| VNone
| VStr (s : string)
| VInt (z : Z).

Definition kwargs : Type := list (string * value).

(** What the module asks of its surroundings: the working directory, the
    outcome of [os.stat(path)] and of [open(path, 'rb')] (the contents of
    the file when it opens), the builtin [repr] on strings,
    [mimetypes.guess_type], the text of the [TypeError] the interpreter
    raises when a callable gets an argument twice (it names the callable
    and the argument, in a wording that depends on the version), and what
    the host framework's [Response.__init__] raises, if anything, on the
    keyword arguments it is passed through [**kw]. *)
Record runtime : Type := mk_runtime {
  getcwd     : string;
  os_stat    : string -> result stat_result;
  open_rb    : string -> result (list byte);
  repr       : string -> string;
  guess_type : string -> option string * option string;
  multiple_values_text : string -> string -> string;
  response_init : kwargs -> option exn
}.

(** [os.path.isfile] and [os.path.isdir]: a failing [os.stat] means no. *)
Definition isfile (rt : runtime) (path : string) : bool :=
  match os_stat rt path with
  | Raise _ => false
  | Return st => match st_mode st with S_IFREG => true | _ => false end
  end.

Definition isdir (rt : runtime) (path : string) : bool :=
  match os_stat rt path with
  | Raise _ => false
  | Return st => match st_mode st with S_IFDIR => true | _ => false end
  end.

(** The errors of the file system are the exceptions of the classes
    [IOError] and [OSError]: [rt] raises nothing else on [path]. *)
Definition raises_only_os_errors (rt : runtime) (path : string) : Prop :=
  (forall e, os_stat rt path = Raise e -> is_io_or_os_error e = true) /\
  (forall e, open_rb rt path = Raise e -> is_io_or_os_error e = true).

(** [sub in s] *)
Definition contains (s sub : string) : Prop :=
  exists before after, s = (before ++ sub ++ after)%string.

(** The system calls a responder makes, in order. *)
Inductive syscall : Type :=
| SysStat (path : string)
| SysOpen (path : string).

(* ================================================================= *)
(** ** Requests and responses *)

Record request : Type := mk_request {
  method    : string;
  path_info : string
}.

Fixpoint has_key (k : string) (kw : kwargs) : bool :=
  match kw with
  | [] => false
  | (k', _) :: kw' => String.eqb k k' || has_key k kw'
  end.

(** [kw.setdefault(k, v)] *)
Definition setdefault (k : string) (v : value) (kw : kwargs) : kwargs :=
  if has_key k kw then kw else kw ++ [(k, v)].

(** [kw.get(k)] *)
Fixpoint get_key (k : string) (kw : kwargs) : option value :=
  match kw with
  | [] => None
  | (k', v) :: kw' => if String.eqb k k' then Some v else get_key k kw'
  end.

(** Calling with [**kw] a callable that already gets the arguments
    [names]: the first key of [kw] that is one of them, if any, makes the
    interpreter raise [TypeError] instead of making the call. *)
Definition clash (names : list string) (kw : kwargs) : option string :=
  match find (fun entry => existsb (String.eqb (fst entry)) names) kw with
  | Some (k, _) => Some k
  | None => None
  end.

Definition multiple_values (rt : runtime) (callee key : string) : exn :=
  mk_exn TypeError (multiple_values_text rt callee key).

Definition of_option (o : option string) : value :=
  match o with
  | None => VNone
  | Some s => VStr s
  end.

Inductive response : Type :=
| HTTPMethodNotAllowed (detail : string)
| HTTPNotFound (comment : string)
| HTTPForbidden (detail : option string)
| ConditionalResponse (app_iter : PyFile.file) (content_length : Z)
    (last_modified : Z) (kw : kwargs).
    (* Response(...).conditional_response_app *)

(** The status of the error responses; the status of a conditional
    response is settled by the host framework from the request headers. *)
Definition status (r : response) : option Z :=
  match r with
  | HTTPMethodNotAllowed _ => Some 405
  | HTTPNotFound _ => Some 404
  | HTTPForbidden _ => Some 403
  | ConditionalResponse _ _ _ _ => None
  end.

(* ================================================================= *)
(** ** FileApp *)

Module FileApp.

Record t : Type := mk {
  filename : string;
  kw       : kwargs
}.

Definition __init__ (rt : runtime) (filename : string) (kw : kwargs) : t :=
  let (content_type, content_encoding) := guess_type rt filename in
  let kw := setdefault "content_type" (of_option content_type) kw in
  let kw := setdefault "content_encoding" (of_option content_encoding) kw in
  let kw := setdefault "accept_ranges" (VStr "bytes") kw in
  mk filename kw.

(** [Response(app_iter=.., content_length=.., last_modified=.., **kw)
    .conditional_response_app]: a key of [kw] that repeats one of the
    three explicit arguments stops the call with [TypeError]; otherwise
    the host framework's constructor runs on the arguments. *)
Definition Response (rt : runtime) (app_iter : PyFile.file)
    (content_length last_modified : Z) (kw : kwargs) : result response :=
  match clash ["app_iter"; "content_length"; "last_modified"] kw with
  | Some key => Raise (multiple_values rt "Response" key)
  | None =>
      match response_init rt kw with
      | Some e => Raise e
      | None =>
          Return (ConditionalResponse app_iter content_length last_modified kw)
      end
  end.

(** [req.method not in ('GET', 'HEAD')] *)
Definition method_allowed (m : string) : bool :=
  String.eqb m "GET" || String.eqb m "HEAD".

(** [__call__(self, req)]: the response, or the exception that escapes,
    together with the system calls made on the way. *)
Definition __call__ (rt : runtime) (self : t) (req : request)
  : result response * list syscall :=
  if negb (method_allowed (method req)) then
    (Return (HTTPMethodNotAllowed
               ("You cannot " ++ method req ++ " a file")%string), [])
  else
    match os_stat rt (filename self) with
    | Raise e =>
        if is_io_or_os_error e then
          let msg := ("Can't open " ++ repr rt (filename self) ++ ": "
                        ++ exn_str e)%string in
          (Return (HTTPNotFound msg), [SysStat (filename self)])
        else (Raise e, [SysStat (filename self)])
    | Return stat =>
        match open_rb rt (filename self) with
        | Raise e =>
            if is_io_or_os_error e then
              let msg := ("You are not permitted to view this file ("
                            ++ exn_str e ++ ")")%string in
              (Return (HTTPForbidden (Some msg)),
               [SysStat (filename self); SysOpen (filename self)])
            else (Raise e, [SysStat (filename self); SysOpen (filename self)])
        | Return contents =>
            (Response rt (PyFile.opened contents)
               (st_size stat) (st_mtime stat) (kw self),
             [SysStat (filename self); SysOpen (filename self)])
        end
    end.

End FileApp.

(* ================================================================= *)
(** ** DirectoryApp *)

Module DirectoryApp.
Import PyStr.

Record t : Type := mk {
  path       : string;
  fileapp_kw : kwargs
}.

Definition assertion_error : exn := mk_exn AssertionError "".

Definition __init__ (rt : runtime) (path : string) (kw : kwargs) : result t :=
  let path := PosixPath.abspath (getcwd rt) path in
  let path := if negb (endswith path PosixPath.sep)
              then (path ++ PosixPath.sep)%string else path in
  if isdir rt path then Return (mk path kw) else Raise assertion_error.

(** [FileApp(path, **self.fileapp_kw)]: a key [self] or [filename] in the
    keywords repeats a parameter of [FileApp.__init__] and stops the call
    with [TypeError]. *)
Definition make_fileapp (rt : runtime) (self : t) (path : string)
  : result FileApp.t :=
  match clash ["self"; "filename"] (fileapp_kw self) with
  | Some key => Raise (multiple_values rt "FileApp" key)
  | None => Return (FileApp.__init__ rt path (fileapp_kw self))
  end.

(** The path a request resolves to. *)
Definition candidate (rt : runtime) (self : t) (req : request) : string :=
  PosixPath.abspath (getcwd rt)
    (PosixPath.join (path self) (lstrip (path_info req) "/")).

(** The three branches of [__call__]. *)
Inductive decision : Type :=
| NotFound (comment : string)
| Forbidden
| Delegate (path : string).

Definition dispatch (rt : runtime) (self : t) (req : request) : decision :=
  let path' := candidate rt self req in
  if negb (isfile rt path') then NotFound path'
  else if negb (startswith path' (path self)) then Forbidden
  else Delegate path'.

(** [__call__(self, req)]; [make] is the [make_fileapp] of the instance,
    which a subclass may override.  The file responder the factory
    returns is then called with the request. *)
Definition __call__ (rt : runtime) (make : t -> string -> result FileApp.t)
    (self : t) (req : request) : result response * list syscall :=
  let path' := candidate rt self req in
  match dispatch rt self req with
  | NotFound comment => (Return (HTTPNotFound comment), [SysStat path'])
  | Forbidden => (Return (HTTPForbidden None), [SysStat path'])
  | Delegate p =>
      match make self p with
      | Raise e => (Raise e, [SysStat path'])
      | Return app =>
          let (r, calls) := FileApp.__call__ rt app req in
          (r, SysStat path' :: calls)
      end
  end.

End DirectoryApp.

(* ================================================================= *)
(** ** Concrete worlds used in the examples *)

Module Sample.

(** The bytes 0, 1, ..., n-1. *)
Definition byte_of (n : nat) : byte :=
  match Byte.of_nat n with
  | Some b => b
  | None => x00
  end.

Definition counting (n : nat) : list byte := map byte_of (seq 0 n).

Definition enoent (path : string) : exn :=
  mk_exn OSError ("[Errno 2] No such file or directory: '" ++ path ++ "'")%string.

Definition eacces (path : string) : exn :=
  mk_exn IOError ("[Errno 13] Permission denied: '" ++ path ++ "'")%string.

Fixpoint lookup {A : Type} (k : string) (l : list (string * A)) : option A :=
  match l with
  | [] => None
  | (k', a) :: l' => if String.eqb k k' then Some a else lookup k l'
  end.

(** A file system with the directories [dirs], the readable regular files
    [files] and the regular files [locked] that the process may not
    open; the working directory is the root. *)
Definition tree (dirs : list string) (files : list (string * list byte))
    (locked : list string) : runtime :=
  mk_runtime "/"
    (fun p =>
       if existsb (String.eqb p) dirs then Return (mk_stat S_IFDIR 4096 0)
       else match lookup p files with
            | Some contents =>
                Return (mk_stat S_IFREG (Z.of_nat (length contents)) 0)
            | None =>
                if existsb (String.eqb p) locked
                then Return (mk_stat S_IFREG 0 0)
                else Raise (enoent p)
            end)
    (fun p =>
       match lookup p files with
       | Some contents => Return contents
       | None =>
           if existsb (String.eqb p) locked then Raise (eacces p)
           else Raise (enoent p)
       end)
    (fun s => ("'" ++ s ++ "'")%string)
    (fun _ => (None, None))
    (fun callee key =>
       (callee ++ "() got multiple values for keyword argument '"
               ++ key ++ "'")%string)
    (fun _ => None).

(** [/srv/www] holds [index.html] and [private.txt], which the process
    may not open; [/srv/passwd] lies outside it; there is no
    [/srv/secret.txt] and no [/srv/www/missing.txt]. *)
Definition site : runtime :=
  tree ["/"; "/srv"; "/srv/"; "/srv/www"; "/srv/www/"]
       [("/srv/www/index.html", counting 5); ("/srv/passwd", counting 7)]
       ["/srv/www/private.txt"].

(** [/data] next to [/database], which holds [x] or not. *)
Definition siblings (x_exists : bool) : runtime :=
  tree ["/"; "/data"; "/data/"; "/database"; "/database/"]
       (("/data/a", counting 3)
          :: if x_exists then [("/database/x", counting 4)] else [])
       [].

Definition GET (path_info : string) : request := mk_request "GET" path_info.

End Sample.

(* ================================================================= *)
(** * Properties *)

(** ** File objects *)

Section FileFacts.
Import PyFile.

Lemma firstn_then_rest (A : Type) (k : nat) (l : list A) :
  l = firstn k l ++ skipn (length (firstn k l)) l.
Proof.
  destruct (Nat.le_gt_cases k (length l)) as [Hle | Hgt].
  - rewrite (firstn_length_le l Hle). symmetry. apply firstn_skipn.
  - rewrite (firstn_all2 l) by lia.
    rewrite skipn_all. symmetry. apply app_nil_r.
Qed.

(** A read that returns splits what was left of the file into the chunk
    and what is left now, and leaves the file open. *)
Lemma read_inv (f f' : file) (size : Z) (c : list byte) :
  read f size = Return (c, f') ->
  closed f = false /\ closed f' = false /\ data f' = data f /\
  remainder f = c ++ remainder f'.
Proof.
  unfold read. destruct (size <? -1); [discriminate |].
  destruct (closed f) eqn:Hc; [discriminate |].
  intros H. injection H as Hchunk Hf'. subst f'. cbn [closed data].
  repeat split.
  unfold remainder at 2. cbn [pos data].
  rewrite (Nat.add_comm (pos f)), <- skipn_skipn. fold (remainder f).
  destruct (size <? 0).
  - subst c. rewrite skipn_all. symmetry. apply app_nil_r.
  - subst c. apply firstn_then_rest.
Qed.

(** A read that returns was asked for [-1] bytes or more. *)
Lemma read_size_inv (f f' : file) (size : Z) (c : list byte) :
  read f size = Return (c, f') -> -1 <= size.
Proof.
  unfold read. destruct (size <? -1) eqn:E; [discriminate | lia].
Qed.

Lemma read_open (f : file) (size : Z) :
  closed f = false ->
  -1 <= size ->
  exists c f', read f size = Return (c, f').
Proof.
  intros Hc Hsize. unfold read. rewrite Hc.
  destruct (size <? -1) eqn:E; [lia | eauto].
Qed.

(** A size below [-1] is refused whatever the state of the file. *)
Lemma read_refused (f : file) (size : Z) :
  size < -1 -> read f size = Raise read_length_error.
Proof.
  intros Hsize. unfold read. destruct (size <? -1) eqn:E; [reflexivity | lia].
Qed.

(** At the end of the file every read is empty. *)
Lemma read_at_eof (f f' : file) (size : Z) (c : list byte) :
  remainder f = [] ->
  read f size = Return (c, f') ->
  c = [].
Proof.
  intros Hrem H. apply read_inv in H. destruct H as (_ & _ & _ & Hsplit).
  rewrite Hrem in Hsplit. symmetry in Hsplit.
  apply app_eq_nil in Hsplit. tauto.
Qed.

(** A read of a non-negative size returns at most that many bytes. *)
Lemma read_at_most (f f' : file) (size : Z) (c : list byte) :
  0 <= size ->
  read f size = Return (c, f') ->
  Z.of_nat (length c) <= size.
Proof.
  unfold read. destruct (size <? -1); [discriminate |].
  destruct (closed f); [discriminate |].
  intros Hsize H. injection H as Hchunk _.
  destruct (size <? 0) eqn:Hneg; [lia |].
  subst c. pose proof (firstn_le_length (Z.to_nat size) (remainder f)). lia.
Qed.

(** A read of [-1] bytes returns everything that is left. *)
Lemma read_minus_one (f : file) :
  closed f = false ->
  read f (-1) =
    Return (remainder f, mk_file (data f) (pos f + length (remainder f)) false).
Proof.
  intros Hc. unfold read. rewrite Hc. reflexivity.
Qed.

Lemma seek_inv (f f0 : file) (s : Z) :
  seek f s = Return f0 ->
  closed f = false /\ 0 <= s /\ f0 = mk_file (data f) (Z.to_nat s) false.
Proof.
  unfold seek. destruct (closed f); [discriminate |].
  destruct (s <? 0) eqn:Hneg; [discriminate |].
  intros H. injection H as H. split; [reflexivity | split; [lia | auto]].
Qed.

Lemma seek_open (f : file) (s : Z) :
  closed f = false -> 0 <= s ->
  seek f s = Return (mk_file (data f) (Z.to_nat s) false).
Proof.
  intros Hc Hs. unfold seek. rewrite Hc.
  destruct (s <? 0) eqn:Hneg; [lia | reflexivity].
Qed.

Lemma remainder_le (f : file) : (length (remainder f) <= length (data f))%nat.
Proof.
  unfold remainder. rewrite length_skipn. lia.
Qed.

End FileFacts.

(* ----------------------------------------------------------------- *)
(** ** The generator against the algorithm of the specification *)

Section Generator.
Import PyFile FileIter.

Lemma drain_S (k : nat) (g : gen) (f : file) :
  drain (S k) g f = follow k (next g f).
Proof.
  cbn [drain]. destruct (next g f) as [[[c | | e] g'] f']; reflexivity.
Qed.

(** The bytes left after a non-empty chunk are fewer. *)
Lemma fewer_left (f f' : file) (size : Z) (b : byte) (c : list byte) (k : nat) :
  read f size = Return (b :: c, f') ->
  (length (remainder f) <= S k)%nat ->
  (length (remainder f') <= k)%nat.
Proof.
  intros Hr Hlen. apply read_inv in Hr. destruct Hr as (_ & _ & _ & Hsplit).
  rewrite Hsplit, length_app in Hlen. cbn [length] in Hlen. lia.
Qed.

Lemma nothing_left (f : file) :
  (length (remainder f) <= 0)%nat -> remainder f = [].
Proof.
  destruct (remainder f); cbn [length]; [reflexivity | lia].
Qed.

(** From the top of the loop, on an open file and with sizes that [read]
    accepts, [k] further pulls exhaust the generator when at most [k]
    bytes are left, and what is produced is a derivation of the
    specification's loop. *)
Lemma loop_exhausts (bs : Z) (k : nat) :
  forall (limit : option Z) (f : file),
    closed f = false ->
    sizes_accepted bs limit ->
    (length (remainder f) <= k)%nat ->
    exists cs f',
      follow k (loop_top limit bs f) = mk_run cs Exhausted Finished (close f')
      /\ RangeSpec.read_loop bs limit f cs f'.
Proof.
  induction k as [| k IH]; intros limit f Hopen [Hbs Hl0] Hlen;
    (assert (-1 <= read_size bs limit) as Hsize
        by (destruct limit; cbn [read_size]; lia));
    destruct (read_open f (read_size bs limit) Hopen Hsize) as (c & f' & Hr);
    unfold loop_top; rewrite Hr.
  - assert (c = []) as ->
        by (eapply read_at_eof; [apply nothing_left, Hlen | exact Hr]).
    exists [], f'. split; [reflexivity |].
    destruct limit; constructor; exact Hr.
  - destruct c as [| b c].
    + exists [], f'. split; [reflexivity |].
      destruct limit; constructor; exact Hr.
    + pose proof (fewer_left _ _ _ _ _ _ Hr Hlen) as Hlen'.
      pose proof (read_inv _ _ _ _ Hr) as (_ & Hopen' & _).
      cbn [follow]. rewrite drain_S. cbn [next]. unfold resume.
      destruct limit as [l |].
      * destruct (l - Z.of_nat (length (b :: c)) <=? 0) eqn:Hl.
        -- exists [b :: c], f'. split; [reflexivity |].
           apply RangeSpec.loop_bounded_last; [exact Hr | discriminate | lia].
        -- destruct (IH (Some (l - Z.of_nat (length (b :: c)))) f' Hopen')
             as (cs & f'' & Hrun & Hspec);
             [split; [exact Hbs | lia] | exact Hlen' |].
           rewrite Hrun. exists ((b :: c) :: cs), f''. split; [reflexivity |].
           eapply RangeSpec.loop_bounded_chunk;
             [exact Hr | discriminate | lia | exact Hspec].
      * destruct (IH None f' Hopen') as (cs & f'' & Hrun & Hspec);
          [split; [exact Hbs | exact I] | exact Hlen' |].
        rewrite Hrun. exists ((b :: c) :: cs), f''. split; [reflexivity |].
        eapply RangeSpec.loop_unbounded_chunk;
          [exact Hr | discriminate | exact Hspec].
Qed.

(** Conversely a derivation of the specification's loop is what the
    generator does. *)
Lemma read_loop_complete (bs : Z) (limit : option Z) (f f' : file)
    (cs : list (list byte)) :
  RangeSpec.read_loop bs limit f cs f' ->
  forall k, (length (remainder f) <= k)%nat ->
    follow k (loop_top limit bs f) = mk_run cs Exhausted Finished (close f').
Proof.
  induction 1 as [f f' Hr | f c f' cs f'' Hr Hc _ IH | l f f' Hr
                  | l f c f' Hr Hc Hl | l f c f' cs f'' Hr Hc Hl _ IH];
    intros k Hlen; unfold loop_top; cbn [read_size]; rewrite Hr;
    try reflexivity;
    (destruct c as [| b c]; [congruence |]);
    (destruct k as [| k];
     [apply nothing_left in Hlen; apply read_at_eof with (1 := Hlen) in Hr;
      discriminate |]);
    pose proof (fewer_left _ _ _ _ _ _ Hr Hlen) as Hlen';
    cbn [follow]; rewrite drain_S; cbn [next]; unfold resume.
  - rewrite (IH k Hlen'). reflexivity.
  - destruct (l - Z.of_nat (length (b :: c)) <=? 0) eqn:E; [reflexivity | lia].
  - destruct (l - Z.of_nat (length (b :: c)) <=? 0) eqn:E; [lia |].
    rewrite (IH k Hlen'). reflexivity.
Qed.

Lemma read_loop_open (bs : Z) (limit : option Z) (f f' : file)
    (cs : list (list byte)) :
  RangeSpec.read_loop bs limit f cs f' -> closed f = false /\ closed f' = false.
Proof.
  induction 1 as [f f' Hr | f c f' cs f'' Hr Hc _ IH | l f f' Hr
                  | l f c f' Hr Hc Hl | l f c f' cs f'' Hr Hc Hl _ IH];
    apply read_inv in Hr; tauto.
Qed.

(** A run of the loop that ended in [StopIteration] is a derivation of the
    specification's loop, and closed the file it read. *)
Lemma loop_sound (bs : Z) (k : nat) :
  forall (limit : option Z) (f : file) (cs : list (list byte))
         (g : gen) (f1 : file),
    follow k (loop_top limit bs f) = mk_run cs Exhausted g f1 ->
    exists f', f1 = close f' /\ RangeSpec.read_loop bs limit f cs f'.
Proof.
  induction k as [| k IH]; intros limit f cs g f1; unfold loop_top;
    (destruct (read f (read_size bs limit)) as [e | [c f']] eqn:Hr;
     [cbn [follow]; discriminate |]);
    (destruct c as [| b c];
     [cbn [follow]; intros H; injection H as <- _ <-; exists f';
      split; [reflexivity |]; destruct limit; constructor; exact Hr |]);
    cbn [follow].
  - cbn [drain end_of]. discriminate.
  - rewrite drain_S. cbn [next]. unfold resume.
    destruct limit as [l |].
    + destruct (l - Z.of_nat (length (b :: c)) <=? 0) eqn:Hl.
      * cbn [follow chunks end_of gen_of file_of].
        intros H. injection H as <- _ <-. exists f'. split; [reflexivity |].
        apply RangeSpec.loop_bounded_last; [exact Hr | discriminate | lia].
      * destruct (follow k (loop_top (Some (l - Z.of_nat (length (b :: c))))
                              bs f')) as [cs' e' g' f2] eqn:Hrun.
        cbn [chunks end_of gen_of file_of].
        intros H. injection H as <- -> _ <-.
        destruct (IH _ _ _ _ _ Hrun) as (f'' & -> & Hspec).
        exists f''. split; [reflexivity |].
        eapply RangeSpec.loop_bounded_chunk;
          [exact Hr | discriminate | lia | exact Hspec].
    + destruct (follow k (loop_top None bs f')) as [cs' e' g' f2] eqn:Hrun.
      cbn [chunks end_of gen_of file_of].
      intros H. injection H as <- -> _ <-.
      destruct (IH _ _ _ _ _ Hrun) as (f'' & -> & Hspec).
      exists f''. split; [reflexivity |].
      eapply RangeSpec.loop_unbounded_chunk;
        [exact Hr | discriminate | exact Hspec].
Qed.

(** With as many pulls as bytes left, the loop ends, in [StopIteration] or
    in an exception, and the file is closed either way. *)
Lemma loop_ends (bs : Z) (k : nat) :
  forall (limit : option Z) (f : file),
    (length (remainder f) <= k)%nat ->
    let r := follow k (loop_top limit bs f) in
    end_of r <> Pending /\ gen_of r = Finished /\ closed (file_of r) = true.
Proof.
  induction k as [| k IH]; intros limit f Hlen r; subst r; unfold loop_top;
    (destruct (read f (read_size bs limit)) as [e | [c f']] eqn:Hr;
     [cbn; repeat split; discriminate |]);
    (destruct c as [| b c]; [cbn; repeat split; discriminate |]).
  - apply nothing_left in Hlen. apply read_at_eof with (1 := Hlen) in Hr.
    discriminate.
  - pose proof (fewer_left _ _ _ _ _ _ Hr Hlen) as Hlen'.
    cbn [follow]. rewrite drain_S. cbn [next]. unfold resume.
    destruct limit as [l |];
      [destruct (l - Z.of_nat (length (b :: c)) <=? 0);
       [cbn; repeat split; discriminate |] |];
      cbn [end_of gen_of file_of]; apply IH; exact Hlen'.
Qed.

Lemma iterate_eq (seek limit : option Z) (bs : Z) (f : file) :
  iterate seek limit bs f = follow (length (data f)) (start seek limit bs f).
Proof.
  unfold iterate, app_iter_range. rewrite drain_S. reflexivity.
Qed.

(** Iterating over an open file with a legal seek and sizes that [read]
    accepts reaches the end, and what it produces is a derivation of the
    specification's algorithm. *)
Lemma iterate_exhausts (seek limit : option Z) (bs : Z) (f : file) :
  closed f = false ->
  legal_seek seek ->
  sizes_accepted bs (budget seek limit) ->
  exists cs f',
    iterate seek limit bs f = mk_run cs Exhausted Finished (close f')
    /\ RangeSpec.range bs seek limit f cs f'.
Proof.
  intros Hopen Hseek Hsizes. rewrite iterate_eq. unfold start.
  destruct seek as [s |]; cbn [budget] in Hsizes.
  - cbn [truthy]. destruct (s =? 0) eqn:Hs; cbn [negb].
    + apply Z.eqb_eq in Hs. subst s.
      destruct (loop_exhausts bs _ limit f Hopen Hsizes (remainder_le f))
        as (cs & f' & Hrun & Hspec).
      exists cs, f'. split; [exact Hrun | constructor; exact Hspec].
    + apply Z.eqb_neq in Hs. cbn [legal_seek] in Hseek.
      rewrite (seek_open f s Hopen Hseek).
      set (f0 := mk_file (data f) (Z.to_nat s) false).
      destruct (loop_exhausts bs (length (data f)) (adjust limit s) f0
                  eq_refl Hsizes (remainder_le f0))
        as (cs & f' & Hrun & Hspec).
      exists cs, f'. split; [exact Hrun |].
      destruct limit as [l |]; cbn [adjust] in Hspec.
      * eapply RangeSpec.range_bounded;
          [exact Hs | apply seek_open; assumption | exact Hspec].
      * eapply RangeSpec.range_unbounded;
          [exact Hs | apply seek_open; assumption | exact Hspec].
  - destruct (loop_exhausts bs _ limit f Hopen Hsizes (remainder_le f))
      as (cs & f' & Hrun & Hspec).
    exists cs, f'. split; [exact Hrun | constructor; exact Hspec].
Qed.

Lemma range_complete (seek limit : option Z) (bs : Z) (f f' : file)
    (cs : list (list byte)) :
  RangeSpec.range bs seek limit f cs f' ->
  iterate seek limit bs f = mk_run cs Exhausted Finished (close f')
  /\ closed f' = false.
Proof.
  intros H. rewrite iterate_eq. unfold start.
  destruct H as [limit f cs f' Hloop | limit f cs f' Hloop
                 | s f f0 cs f' Hs Hseek Hloop
                 | s l f f0 cs f' Hs Hseek Hloop];
    pose proof (read_loop_open _ _ _ _ _ Hloop) as [_ Hopen'];
    (split; [| exact Hopen']).
  - apply read_loop_complete; [exact Hloop | apply remainder_le].
  - cbn [truthy Z.eqb negb].
    apply read_loop_complete; [exact Hloop | apply remainder_le].
  - cbn [truthy]. apply Z.eqb_neq in Hs. rewrite Hs. cbn [negb].
    rewrite Hseek. apply seek_inv in Hseek. destruct Hseek as (_ & _ & ->).
    apply read_loop_complete; [exact Hloop |].
    apply (remainder_le (mk_file (data f) (Z.to_nat s) false)).
  - cbn [truthy]. apply Z.eqb_neq in Hs. rewrite Hs. cbn [negb].
    rewrite Hseek. apply seek_inv in Hseek. destruct Hseek as (_ & _ & ->).
    apply read_loop_complete; [exact Hloop |].
    apply (remainder_le (mk_file (data f) (Z.to_nat s) false)).
Qed.

(** An iteration that ended in [StopIteration] is a derivation of the
    specification's algorithm. *)
Lemma iterate_sound (seek limit : option Z) (bs : Z) (f f1 : file)
    (cs : list (list byte)) (g : gen) :
  iterate seek limit bs f = mk_run cs Exhausted g f1 ->
  exists f', f1 = close f' /\ RangeSpec.range bs seek limit f cs f'.
Proof.
  rewrite iterate_eq. unfold start.
  destruct seek as [s |].
  - cbn [truthy]. destruct (s =? 0) eqn:Hs; cbn [negb].
    + apply Z.eqb_eq in Hs. subst s. intros H.
      destruct (loop_sound _ _ _ _ _ _ _ H) as (f' & -> & Hspec).
      exists f'. split; [reflexivity | constructor; exact Hspec].
    + apply Z.eqb_neq in Hs.
      destruct (PyFile.seek f s) as [e | f0] eqn:Hseek;
        [cbn [follow]; discriminate |].
      intros H. destruct (loop_sound _ _ _ _ _ _ _ H) as (f' & -> & Hspec).
      exists f'. split; [reflexivity |].
      destruct limit as [l |]; cbn [adjust] in Hspec.
      * eapply RangeSpec.range_bounded; eassumption.
      * eapply RangeSpec.range_unbounded; eassumption.
  - intros H. destruct (loop_sound _ _ _ _ _ _ _ H) as (f' & -> & Hspec).
    exists f'. split; [reflexivity | constructor; exact Hspec].
Qed.

End Generator.

(* ----------------------------------------------------------------- *)
(** ** Byte ranges *)

Section Ranges.
Import PyFile FileIter.

(** Iterating never leaves the generator pending: it ends in
    [StopIteration] or in an exception. *)
Lemma iterate_ends (seek limit : option Z) (bs : Z) (f : file) :
  end_of (iterate seek limit bs f) <> Pending.
Proof.
  rewrite iterate_eq. unfold start.
  destruct seek as [s |];
    [cbn [truthy]; destruct (s =? 0); cbn [negb];
     [| destruct (PyFile.seek f s) as [e | f0] eqn:Hseek;
        [cbn [follow end_of]; discriminate
        | apply seek_inv in Hseek; destruct Hseek as (_ & _ & ->)]] |];
    match goal with
    | |- end_of (follow _ (loop_top ?lim bs ?f1)) <> Pending =>
        apply (loop_ends bs (length (data f)) lim f1 (remainder_le f1))
    end.
Qed.

(** C3.  The generator follows the algorithm of the specification: the
    chunks and the final file object of an iteration that ends normally
    are exactly those the specification's relation [RangeSpec.range]
    derives (seek when set and non-zero, limit reduced by seek, reads of
    [min(block_size, limit)] or [block_size] bytes, stop on an empty read,
    stop once [limit <= 0]), and every derivation is such an
    iteration. *)
Theorem app_iter_range_follows_algorithm
    (seek limit : option Z) (bs : Z) (f f' : file) (cs : list (list byte)) :
  RangeSpec.range bs seek limit f cs f' <->
  (iterate seek limit bs f = mk_run cs Exhausted Finished (close f')
   /\ closed f' = false).
Proof.
  split.
  - apply range_complete.
  - intros [Hrun Hopen'].
    destruct (iterate_sound _ _ _ _ _ _ _ Hrun) as (f0 & Hclose & Hspec).
    pose proof (range_complete _ _ _ _ _ _ Hspec) as [_ Hopen0].
    injection Hclose as Hdata Hpos.
    assert (f0 = f') as <-.
    { destruct f0 as [d0 p0 c0], f' as [d' p' c'].
      cbn [data pos closed] in *. congruence. }
    exact Hspec.
Qed.

(** C7.  [seek=0] is falsy: the first [next()] and the whole iteration
    are the same as with [seek] omitted, for every file object, limit and
    block size. *)
Theorem seek_zero_same_as_omitted (limit : option Z) (bs : Z) (f : file) :
  next (app_iter_range (Some 0) limit bs) f
    = next (app_iter_range None limit bs) f
  /\ iterate (Some 0) limit bs f = iterate None limit bs f.
Proof.
  split; [reflexivity |]. rewrite !iterate_eq. reflexivity.
Qed.




(** With a budget and a block size that are not negative the loop never
    yields more than the budget, however long the consumer pulls. *)
Lemma loop_within_budget (bs : Z) (k : nat) :
  0 <= bs ->
  forall (l : Z) (f : file),
    0 <= l ->
    Z.of_nat (total_bytes (follow k (loop_top (Some l) bs f))) <= l.
Proof.
  intros Hbs. induction k as [| k IH]; intros l f Hl;
    unfold loop_top; cbn [read_size];
    (destruct (read f (Z.min bs l)) as [e | [c f']] eqn:Hr;
     [cbn; lia |]);
    (destruct c as [| b c]; [cbn; lia |]);
    apply read_at_most in Hr; try lia;
    unfold total_bytes; cbn [follow chunks concat]; rewrite length_app.
  - cbn [drain chunks concat]. change (length (@nil byte)) with 0%nat. lia.
  - rewrite drain_S. cbn [next]. unfold resume.
    destruct (l - Z.of_nat (length (b :: c)) <=? 0) eqn:E.
    + cbn [follow chunks concat]. change (length (@nil byte)) with 0%nat. lia.
    + specialize (IH (l - Z.of_nat (length (b :: c))) f').
      unfold total_bytes in IH. lia.
Qed.

(** C9 (amended).  With both seek and limit set on an open file: when
    [seek > limit] the budget left after the adjustment is negative and
    the first read asks for the negative size
    [min(block_size, limit - seek)].  When that size is exactly [-1] the
    read returns the whole remainder of the file, which is yielded as one
    chunk although the budget is exhausted; when it is below [-1] the read
    raises [ValueError], nothing is yielded and the [finally] clause closes
    the file.  When [seek <= limit] (and the block size is not negative)
    the bytes yielded stay within [limit - seek]. *)
Theorem seek_beyond_limit_first_read (s l bs : Z) (f : file) :
  closed f = false ->
  0 <= s ->
  let r := iterate (Some s) (Some l) bs f in
  let f0 := mk_file (data f) (if s =? 0 then pos f else Z.to_nat s) false in
  (l < s ->
     (exists budget,
         start (Some s) (Some l) bs f = loop_top (Some budget) bs f0
         /\ budget = l - s /\ budget < 0
         /\ read_size bs (Some budget) < 0)
     /\ (read_size bs (Some (l - s)) = -1 ->
         chunks r = match remainder f0 with
                    | [] => []
                    | _ :: _ => [remainder f0]
                    end
         /\ end_of r = Exhausted
         /\ closed (file_of r) = true
         /\ total_bytes r = length (remainder f0))
     /\ (read_size bs (Some (l - s)) < -1 ->
         chunks r = []
         /\ end_of r = Failed read_length_error
         /\ closed (file_of r) = true))
  /\ (s <= l -> 0 <= bs -> Z.of_nat (total_bytes r) <= l - s).
Proof.
  intros Hopen Hs r f0.
  assert (exists budget,
             start (Some s) (Some l) bs f = loop_top (Some budget) bs f0
             /\ budget = l - s) as (budget & Hstart & Hbudget).
  { unfold start. cbn [truthy]. subst f0.
    destruct (s =? 0) eqn:E; cbn [negb].
    - exists l. split; [| lia].
      destruct f as [d p c]. cbn [closed] in Hopen. subst c. reflexivity.
    - rewrite seek_open by assumption. exists (l - s). split; reflexivity. }
  subst r. rewrite iterate_eq, Hstart. rewrite <- Hbudget. split.
  - intros Hlt.
    assert (read_size bs (Some budget) < 0) as Hneg by (cbn [read_size]; lia).
    split; [exists budget; repeat split; (assumption || lia) |].
    split.
    + intros Hone. unfold loop_top. rewrite Hone.
      rewrite (read_minus_one f0 eq_refl).
      pose proof (remainder_le f0) as Hle.
      change (data f0) with (data f) in Hle.
      destruct (remainder f0) as [| b c] eqn:Hrem.
      * cbn. repeat split.
      * destruct (length (data f)) as [| k]; [cbn [length] in Hle; lia |].
        cbn [follow]. rewrite drain_S. cbn [next]. unfold resume.
        destruct (budget - Z.of_nat (length (b :: c)) <=? 0) eqn:E; [| lia].
        unfold total_bytes. cbn [chunks end_of file_of close closed concat].
        rewrite app_nil_r. repeat split.
    + intros Hlow. unfold loop_top. rewrite (read_refused f0 _ Hlow).
      cbn. repeat split.
  - intros Hle Hbs. apply loop_within_budget; lia.
Qed.

Lemma seek_beyond_limit_first_read_witness :
  let f := opened (Sample.counting 30) in
  chunks (iterate (Some 11) (Some 10) 5 f) = [skipn 11 (Sample.counting 30)]
  /\ end_of (iterate (Some 20) (Some 10) 5 f) = Failed read_length_error
  /\ Z.of_nat (total_bytes (iterate (Some 10) (Some 20) 5 f)) <= 20 - 10.
Proof.
  intros f.
  destruct (seek_beyond_limit_first_read 11 10 5 f eq_refl ltac:(lia))
    as [Hone _].
  destruct (seek_beyond_limit_first_read 20 10 5 f eq_refl ltac:(lia))
    as [Hlow _].
  destruct (seek_beyond_limit_first_read 10 20 5 f eq_refl ltac:(lia))
    as [_ Hwithin].
  specialize (Hone ltac:(lia)). destruct Hone as (_ & Hone & _).
  specialize (Hlow ltac:(lia)). destruct Hlow as (_ & _ & Hlow).
  split; [exact (proj1 (Hone eq_refl)) |].
  split; [exact (proj1 (proj2 (Hlow eq_refl))) |].
  apply Hwithin; lia.
Defined.

(** C9 as stated fails: on the 30 bytes 0..29, [seek=20], [limit=10],
    [block_size=5] ask the first read for [min(5, -10) = -10] bytes; the
    read raises [ValueError] instead of returning the 10 bytes that are
    left, and nothing is yielded. *)
Lemma negative_read_counterexample :
  let data := Sample.counting 30 in
  let r := iterate (Some 20) (Some 10) 5 (opened data) in
  read_size 5 (Some (10 - 20)) = -10
  /\ read (mk_file data 20 false) (-10) = Raise read_length_error
  /\ skipn 20 data <> []
  /\ chunks r = []
  /\ end_of r = Failed read_length_error
  /\ total_bytes r = 0%nat.
Proof.
  cbv zeta. repeat split; try (vm_compute; reflexivity).
  vm_compute. discriminate.
Qed.

(** C2 (amended).  On an open file of at least 30 bytes, [seek=10],
    [limit=20], [block_size=5] yields exactly 2 chunks of 5 bytes, the
    bytes [10,20) of the file: the limit is an end offset and the budget
    is [limit - seek = 10].  The handle is closed when the iteration
    finishes.  The 4 chunks covering [10,30) are what [limit=30]
    yields. *)
Theorem range_10_20_by_5 (f : file) :
  closed f = false ->
  (30 <= length (data f))%nat ->
  let r := iterate (Some 10) (Some 20) 5 f in
  let r' := iterate (Some 10) (Some 30) 5 f in
  (chunks r = [firstn 5 (skipn 10 (data f)); firstn 5 (skipn 15 (data f))]
   /\ Forall (fun c => length c = 5%nat) (chunks r)
   /\ concat (chunks r) = firstn 10 (skipn 10 (data f))
   /\ end_of r = Exhausted
   /\ closed (file_of r) = true)
  /\ (length (chunks r') = 4%nat
      /\ Forall (fun c => length c = 5%nat) (chunks r')
      /\ concat (chunks r') = firstn 20 (skipn 10 (data f))
      /\ end_of r' = Exhausted
      /\ closed (file_of r') = true).
Proof.
  destruct f as [d p c]. cbn [closed data]. intros -> Hlen.
  do 30 (destruct d as [| ? d]; [cbn [length] in Hlen; lia |]).
  clear Hlen. vm_compute. repeat split; repeat constructor.
Qed.

Lemma range_10_20_by_5_witness :
  let r := iterate (Some 10) (Some 20) 5 (opened (Sample.counting 30)) in
  chunks r = [firstn 5 (skipn 10 (Sample.counting 30));
              firstn 5 (skipn 15 (Sample.counting 30))]
  /\ closed (file_of r) = true.
Proof.
  destruct (range_10_20_by_5 (opened (Sample.counting 30)) eq_refl
              ltac:(vm_compute; lia))
    as [(Hchunks & _ & _ & _ & Hclosed) _].
  split; [exact Hchunks | exact Hclosed].
Defined.

(** C2 as stated fails: on the 30 bytes 0..29 the iteration yields 2
    chunks, the bytes [10,20), not 4 chunks covering [10,30). *)
Lemma four_chunks_counterexample :
  let data := Sample.counting 30 in
  let r := iterate (Some 10) (Some 20) 5 (opened data) in
  length (chunks r) = 2%nat
  /\ concat (chunks r) = firstn 10 (skipn 10 data)
  /\ ~ (length (chunks r) = 4%nat
        /\ Forall (fun c => length c = 5%nat) (chunks r)
        /\ concat (chunks r) = firstn 20 (skipn 10 data)).
Proof.
  cbv zeta. split; [vm_compute; reflexivity |].
  split; [vm_compute; reflexivity |].
  intros [H _]. vm_compute in H. discriminate.
Qed.

(** The block size matters to the zero limit: with [-1] the first read
    asks for [min(-1, 0) = -1] bytes, the whole file; below [-1] the read
    is refused. *)
Lemma zero_limit_negative_block_size :
  chunks (iterate None (Some 0) (-1) (opened (Sample.counting 3)))
    = [Sample.counting 3]
  /\ end_of (iterate None (Some 0) (-4) (opened (Sample.counting 3)))
     = Failed read_length_error.
Proof.
  split; vm_compute; reflexivity.
Qed.

(** A seek beyond the end of the file with a limit more than one byte
    before it asks the read for a size below [-1]: the read is refused. *)
Lemma seek_past_eof_and_limit :
  end_of (iterate (Some 45) (Some 10) 5 (opened (Sample.counting 30)))
    = Failed read_length_error.
Proof.
  vm_compute. reflexivity.
Qed.

(** Abandoning the generator at its [yield] closes the file; one whose
    body never started leaves it open. *)
Lemma gen_close_closes (limit : option Z) (bs : Z) (n : nat) (f : file) :
  gen_close (Suspended limit bs n) f = (Finished, close f)
  /\ forall seek, gen_close (Created seek limit bs) f = (Finished, f).
Proof.
  split; reflexivity.
Qed.


(** The run of C2's parameters is a derivation of the specification's
    algorithm. *)
Lemma app_iter_range_follows_algorithm_witness :
  let data := Sample.counting 30 in
  RangeSpec.range 5 (Some 10) (Some 20) (opened data)
    [firstn 5 (skipn 10 data); firstn 5 (skipn 15 data)]
    (mk_file data 20 false).
Proof.
  intros data.
  apply (proj2 (app_iter_range_follows_algorithm (Some 10) (Some 20) 5
                  (opened data)
                  (mk_file data 20 false)
                  [firstn 5 (skipn 10 data); firstn 5 (skipn 15 data)])).
  split; vm_compute; reflexivity.
Defined.

End Ranges.

(* ----------------------------------------------------------------- *)
(** ** Strings *)

Section StringFacts.
Import PyStr.

Lemma append_empty_r (s : string) : (s ++ "")%string = s.
Proof.
  induction s as [| a s IH]; cbn [append]; [reflexivity | now rewrite IH].
Qed.

(** A string that starts with [p] is [p] followed by something. *)
Lemma startswith_app (p s : string) :
  startswith s p = true -> exists rest, s = (p ++ rest)%string.
Proof.
  unfold startswith. revert s.
  induction p as [| a p IH]; intros s H.
  - exists s. reflexivity.
  - destruct s as [| b s]; cbn [prefix] in H; [discriminate |].
    destruct (ascii_dec a b) as [-> | _]; [| discriminate].
    destruct (IH s H) as (rest & ->). exists rest. reflexivity.
Qed.

(** After a common stem, a character other than the separator where the
    root has its separator defeats the prefix test. *)
Lemma startswith_sibling (stem rest : string) (c : ascii) :
  c <> "/"%char ->
  startswith (stem ++ String c rest) (stem ++ "/") = false.
Proof.
  intros Hc. unfold startswith.
  induction stem as [| a stem IH]; cbn [append prefix].
  - destruct (ascii_dec "/" c) as [E | _]; [congruence | reflexivity].
  - destruct (ascii_dec a a) as [_ | N]; [exact IH | congruence].
Qed.

Lemma last_char (c : ascii) (s : string) :
  substring (String.length s - 1) 1 s = String c "" ->
  (1 <= String.length s)%nat ->
  exists stem, s = (stem ++ String c "")%string.
Proof.
  induction s as [| a s IH]; cbn [String.length]; intros H Hlen; [lia |].
  destruct s as [| b s].
  - cbn in H. injection H as ->. exists "". reflexivity.
  - replace (S (String.length (String b s)) - 1)%nat
      with (S (String.length (String b s) - 1))%nat in H
      by (cbn [String.length]; lia).
    cbn [substring] in H.
    destruct IH as (stem & Hs); [exact H | cbn [String.length]; lia |].
    exists (String a stem). cbn [append]. now rewrite <- Hs.
Qed.

Lemma endswith_sep (s : string) :
  endswith s "/" = true -> exists stem, s = (stem ++ "/")%string.
Proof.
  unfold endswith. cbn [String.length].
  destruct (1 <=? String.length s)%nat eqn:Hlen; [| discriminate].
  intros H. apply String.eqb_eq in H. apply Nat.leb_le in Hlen.
  apply last_char; assumption.
Qed.

Lemma append_assoc (a b c : string) :
  ((a ++ b) ++ c)%string = (a ++ b ++ c)%string.
Proof.
  induction a as [| x a IH]; cbn [append]; [reflexivity | now rewrite IH].
Qed.

End StringFacts.

(* ----------------------------------------------------------------- *)
(** ** The file responder *)

Section FileResponder.

Lemma method_allowed_iff (m : string) :
  FileApp.method_allowed m = true <-> m = "GET" \/ m = "HEAD".
Proof.
  unfold FileApp.method_allowed. rewrite orb_true_iff, !String.eqb_eq. tauto.
Qed.

(** C5.  A request whose method is neither GET nor HEAD is answered 405
    with no system call made: the answer is the same whatever the file
    system holds, so a responder for a path that does not exist answers
    405 too. *)
Theorem method_not_allowed_without_fs
    (rt : runtime) (self : FileApp.t) (req : request) :
  method req <> "GET" ->
  method req <> "HEAD" ->
  FileApp.__call__ rt self req
    = (Return (HTTPMethodNotAllowed
                 ("You cannot " ++ method req ++ " a file")%string), [])
  /\ (exists r, fst (FileApp.__call__ rt self req) = Return r
                /\ status r = Some 405)
  /\ (forall rt', FileApp.__call__ rt' self req = FileApp.__call__ rt self req).
Proof.
  intros Hget Hhead.
  assert (FileApp.method_allowed (method req) = false) as Hm.
  { destruct (FileApp.method_allowed (method req)) eqn:E; [| reflexivity].
    apply method_allowed_iff in E. tauto. }
  assert (forall rt0, FileApp.__call__ rt0 self req
            = (Return (HTTPMethodNotAllowed
                         ("You cannot " ++ method req ++ " a file")%string), []))
    as Hcall by (intros rt0; unfold FileApp.__call__; rewrite Hm; reflexivity).
  split; [apply Hcall |]. split.
  - rewrite Hcall. eexists. split; reflexivity.
  - intros rt'. rewrite !Hcall. reflexivity.
Qed.

Lemma method_not_allowed_without_fs_witness :
  let app := FileApp.__init__ Sample.site "/srv/www/missing.txt" [] in
  isfile Sample.site "/srv/www/missing.txt" = false
  /\ FileApp.__call__ Sample.site app (mk_request "POST" "/missing.txt")
     = (Return (HTTPMethodNotAllowed "You cannot POST a file"), []).
Proof.
  intros app. split; [reflexivity |].
  apply (method_not_allowed_without_fs Sample.site app
           (mk_request "POST" "/missing.txt")); discriminate.
Defined.

(** C6.  For GET and HEAD, on a file system that raises only [IOError]
    and [OSError], no error of the file system escapes: a failing
    [os.stat] is answered 404 with a comment made of the [repr] of the
    path and the text of the error, a failing [open] is answered 403 with
    a message holding the text of the error, and when both succeed the
    answer is that of the call of [Response] on the open file. *)
Theorem fs_errors_become_responses
    (rt : runtime) (self : FileApp.t) (req : request) :
  method req = "GET" \/ method req = "HEAD" ->
  raises_only_os_errors rt (FileApp.filename self) ->
  let path := FileApp.filename self in
  let answer := fst (FileApp.__call__ rt self req) in
  match os_stat rt path with
  | Raise e =>
      exists comment,
        answer = Return (HTTPNotFound comment)
        /\ comment = ("Can't open " ++ repr rt path ++ ": " ++ exn_str e)%string
        /\ contains comment (repr rt path)
        /\ contains comment (exn_str e)
  | Return stat =>
      match open_rb rt path with
      | Raise e =>
          exists msg,
            answer = Return (HTTPForbidden (Some msg))
            /\ msg = ("You are not permitted to view this file ("
                        ++ exn_str e ++ ")")%string
            /\ contains msg (exn_str e)
      | Return contents =>
          answer = FileApp.Response rt (PyFile.opened contents)
                     (st_size stat) (st_mtime stat) (FileApp.kw self)
      end
  end.
Proof.
  intros Hm [Hstat Hopen] path answer. subst path answer.
  apply method_allowed_iff in Hm.
  unfold FileApp.__call__. rewrite Hm. cbn [negb].
  destruct (os_stat rt (FileApp.filename self)) as [e | stat].
  - rewrite (Hstat e eq_refl). cbn [fst]. eexists. split; [reflexivity |].
    split; [reflexivity |]. split.
    + exists "Can't open ", (": " ++ exn_str e)%string. reflexivity.
    + exists ("Can't open " ++ repr rt (FileApp.filename self) ++ ": ")%string, "".
      rewrite append_empty_r, !append_assoc. reflexivity.
  - destruct (open_rb rt (FileApp.filename self)) as [e | contents].
    + rewrite (Hopen e eq_refl). cbn [fst]. eexists. split; [reflexivity |].
      split; [reflexivity |].
      exists "You are not permitted to view this file (", ")". reflexivity.
    + reflexivity.
Qed.

Lemma fs_errors_become_responses_witness :
  fst (FileApp.__call__ Sample.site
         (FileApp.__init__ Sample.site "/srv/www/missing.txt" [])
         (Sample.GET "/missing.txt"))
    = Return (HTTPNotFound
                "Can't open '/srv/www/missing.txt': [Errno 2] No such file or directory: '/srv/www/missing.txt'")
  /\ fst (FileApp.__call__ Sample.site
            (FileApp.__init__ Sample.site "/srv/www/private.txt" [])
            (Sample.GET "/private.txt"))
     = Return (HTTPForbidden
                 (Some "You are not permitted to view this file ([Errno 13] Permission denied: '/srv/www/private.txt')")).
Proof.
  assert (forall p, raises_only_os_errors Sample.site p) as Hsite.
  { intros p. split; intros e; cbn;
      repeat match goal with
             | |- context [if ?b then _ else _] => destruct b
             | |- context [match ?o with Some _ => _ | None => _ end] => destruct o
             end;
      intros H; try discriminate; injection H as <-; reflexivity. }
  split.
  - destruct (fs_errors_become_responses Sample.site
                (FileApp.__init__ Sample.site "/srv/www/missing.txt" [])
                (Sample.GET "/missing.txt") (or_introl eq_refl) (Hsite _))
      as (comment & Hanswer & Hcomment & _).
    rewrite Hanswer, Hcomment. reflexivity.
  - destruct (fs_errors_become_responses Sample.site
                (FileApp.__init__ Sample.site "/srv/www/private.txt" [])
                (Sample.GET "/private.txt") (or_introl eq_refl) (Hsite _))
      as (msg & Hanswer & Hmsg & _).
    rewrite Hanswer, Hmsg. reflexivity.
Defined.

End FileResponder.

(* ----------------------------------------------------------------- *)
(** ** The directory responder *)

Section DirectoryResponder.
Import PyStr.

(** [os.stat] gives a path one file type: nothing is both a regular file
    and a directory. *)
Lemma isfile_not_isdir (rt : runtime) (p : string) :
  isfile rt p = true -> isdir rt p = true -> False.
Proof.
  unfold isfile, isdir.
  destruct (os_stat rt p) as [e | st]; [discriminate |].
  destruct (st_mode st); discriminate.
Qed.

(** A directory responder that was constructed holds a root that is a
    directory and ends with the separator. *)
Lemma init_inv (rt : runtime) (root : string) (kw : kwargs)
    (self : DirectoryApp.t) :
  DirectoryApp.__init__ rt root kw = Return self ->
  isdir rt (DirectoryApp.path self) = true
  /\ endswith (DirectoryApp.path self) PosixPath.sep = true
  /\ exists stem, DirectoryApp.path self = (stem ++ "/")%string.
Proof.
  unfold DirectoryApp.__init__.
  set (p := PosixPath.abspath (getcwd rt) root).
  destruct (endswith p PosixPath.sep) eqn:Hend; cbn [negb].
  - destruct (isdir rt p) eqn:Hdir; [| discriminate].
    intros H. injection H as <-. cbn [DirectoryApp.path].
    split; [exact Hdir |]. split; [exact Hend |].
    apply endswith_sep. exact Hend.
  - destruct (isdir rt (p ++ PosixPath.sep)) eqn:Hdir; [| discriminate].
    intros H. injection H as <-. cbn [DirectoryApp.path].
    split; [exact Hdir |]. split; [| exists p; reflexivity].
    destruct (endswith (p ++ PosixPath.sep) PosixPath.sep) eqn:E;
      [reflexivity |].
    exfalso. revert E. unfold endswith, PosixPath.sep. cbn [String.length].
    clear. assert (forall q, String.length (q ++ "/") = S (String.length q)) as L
        by (induction q as [| a q IH]; cbn; [reflexivity | now rewrite IH]).
    rewrite L. cbn [Nat.leb Nat.sub]. rewrite Nat.sub_0_r.
    assert (forall q, substring (String.length q) 1 (q ++ "/") = "/") as Sub
        by (induction q as [| a q IH]; cbn; [reflexivity | exact IH]).
    rewrite Sub. cbn. discriminate.
Qed.


(** What [__call__] answers when the candidate does not start with the
    root. *)
Lemma outside_root (rt : runtime) (make : DirectoryApp.t -> string -> result FileApp.t)
    (self : DirectoryApp.t) (req : request) :
  startswith (DirectoryApp.candidate rt self req) (DirectoryApp.path self)
    = false ->
  let p := DirectoryApp.candidate rt self req in
  DirectoryApp.dispatch rt self req
    = (if isfile rt p then DirectoryApp.Forbidden else DirectoryApp.NotFound p)
  /\ fst (DirectoryApp.__call__ rt make self req)
     = Return (if isfile rt p then HTTPForbidden None else HTTPNotFound p).
Proof.
  intros Hout p. subst p.
  unfold DirectoryApp.__call__, DirectoryApp.dispatch. rewrite Hout.
  destruct (isfile rt (DirectoryApp.candidate rt self req));
    cbn [negb fst]; split; reflexivity.
Qed.

(** C1 (amended).  A request whose candidate path does not start with the
    root is never delegated: it is answered Forbidden (403) when a regular
    file exists at the candidate, and Not Found (404), with the candidate
    as comment, when none does. *)
Theorem outside_root_never_served
    (rt : runtime) (make : DirectoryApp.t -> string -> result FileApp.t)
    (self : DirectoryApp.t) (req : request) :
  startswith (DirectoryApp.candidate rt self req) (DirectoryApp.path self)
    = false ->
  let p := DirectoryApp.candidate rt self req in
  fst (DirectoryApp.__call__ rt make self req)
    = Return (if isfile rt p then HTTPForbidden None else HTTPNotFound p)
  /\ (isfile rt p = true ->
      exists r, fst (DirectoryApp.__call__ rt make self req) = Return r
                /\ status r = Some 403)
  /\ (isfile rt p = false ->
      exists r, fst (DirectoryApp.__call__ rt make self req) = Return r
                /\ status r = Some 404)
  /\ (forall q, DirectoryApp.dispatch rt self req <> DirectoryApp.Delegate q).
Proof.
  intros Hout p.
  destruct (outside_root rt make self req Hout) as [Hd Hr]. fold p in Hd, Hr.
  split; [exact Hr |]. rewrite Hr, Hd. repeat split.
  - intros ->. eexists. split; reflexivity.
  - intros ->. eexists. split; reflexivity.
  - intros q. destruct (isfile rt p); discriminate.
Qed.

Lemma outside_root_never_served_witness :
  let app := DirectoryApp.mk "/srv/www/" [] in
  let call := DirectoryApp.__call__ Sample.site
                (DirectoryApp.make_fileapp Sample.site) app in
  fst (call (Sample.GET "/../passwd")) = Return (HTTPForbidden None)
  /\ fst (call (Sample.GET "/../secret.txt"))
     = Return (HTTPNotFound "/srv/secret.txt").
Proof.
  intros app call. split.
  - destruct (outside_root_never_served Sample.site
                (DirectoryApp.make_fileapp Sample.site) app
                (Sample.GET "/../passwd") eq_refl) as [H _].
    exact H.
  - destruct (outside_root_never_served Sample.site
                (DirectoryApp.make_fileapp Sample.site) app
                (Sample.GET "/../secret.txt") eq_refl) as [H _].
    exact H.
Defined.

(** C1 as stated fails: under the root [/srv/www], the path-info
    [../secret.txt] resolves to [/srv/secret.txt], outside the root, where
    no file exists, and the answer is Not Found (404), not Forbidden. *)
Lemma outside_root_missing_counterexample :
  let rt := Sample.site in
  let app := DirectoryApp.mk "/srv/www/" [] in
  let req := Sample.GET "../secret.txt" in
  DirectoryApp.__init__ rt "/srv/www" [] = Return app
  /\ DirectoryApp.candidate rt app req = "/srv/secret.txt"
  /\ startswith (DirectoryApp.candidate rt app req) (DirectoryApp.path app)
     = false
  /\ fst (DirectoryApp.__call__ rt (DirectoryApp.make_fileapp rt) app req)
     = Return (HTTPNotFound "/srv/secret.txt")
  /\ status (HTTPNotFound "/srv/secret.txt") <> Some 403.
Proof.
  cbv zeta. repeat split; try (vm_compute; reflexivity).
  cbn. discriminate.
Qed.



(** C10 (amended).  The root ends with the separator, so a candidate that
    continues the root's name with another character (root [/data/],
    candidate [/database/x]) fails the prefix test and is never delegated:
    it is answered Forbidden when a regular file exists there and Not Found
    when none does. *)
Theorem sibling_prefix_never_served
    (rt : runtime) (make : DirectoryApp.t -> string -> result FileApp.t)
    (self : DirectoryApp.t) (req : request)
    (stem rest : string) (c : ascii) :
  DirectoryApp.path self = (stem ++ "/")%string ->
  DirectoryApp.candidate rt self req = (stem ++ String c rest)%string ->
  c <> "/"%char ->
  let p := DirectoryApp.candidate rt self req in
  startswith p (DirectoryApp.path self) = false
  /\ (forall q, DirectoryApp.dispatch rt self req <> DirectoryApp.Delegate q)
  /\ fst (DirectoryApp.__call__ rt make self req)
     = Return (if isfile rt p then HTTPForbidden None else HTTPNotFound p).
Proof.
  intros Hroot Hcand Hc p.
  assert (startswith p (DirectoryApp.path self) = false) as Hout.
  { subst p. rewrite Hroot, Hcand. apply startswith_sibling. exact Hc. }
  destruct (outside_root rt make self req Hout) as [Hd Hr]. fold p in Hd, Hr.
  split; [exact Hout |]. split; [| exact Hr].
  intros q. rewrite Hd. destruct (isfile rt p); discriminate.
Qed.

Lemma sibling_prefix_never_served_witness :
  let rt := Sample.siblings true in
  let app := DirectoryApp.mk "/data/" [] in
  let req := Sample.GET "/../database/x" in
  DirectoryApp.__init__ rt "/data" [] = Return app
  /\ startswith "/database/x" "/data/" = false
  /\ fst (DirectoryApp.__call__ rt (DirectoryApp.make_fileapp rt) app req)
     = Return (HTTPForbidden None).
Proof.
  intros rt app req. split; [reflexivity |].
  destruct (sibling_prefix_never_served rt (DirectoryApp.make_fileapp rt) app req
              "/data" "ase/x" "b"%char eq_refl eq_refl ltac:(discriminate))
    as (Hout & _ & Hr).
  split; [exact Hout | exact Hr].
Defined.

(** C10 as stated fails: with the root [/data] and no file at
    [/database/x], the candidate [/database/x] fails the prefix test and
    the answer is Not Found (404), not Forbidden. *)
Lemma sibling_prefix_missing_counterexample :
  let rt := Sample.siblings false in
  let app := DirectoryApp.mk "/data/" [] in
  let req := Sample.GET "/../database/x" in
  DirectoryApp.__init__ rt "/data" [] = Return app
  /\ DirectoryApp.candidate rt app req = "/database/x"
  /\ startswith (DirectoryApp.candidate rt app req) (DirectoryApp.path app)
     = false
  /\ fst (DirectoryApp.__call__ rt (DirectoryApp.make_fileapp rt) app req)
     = Return (HTTPNotFound "/database/x")
  /\ status (HTTPNotFound "/database/x") <> Some 403.
Proof.
  cbv zeta. repeat split; try (vm_compute; reflexivity).
  cbn. discriminate.
Qed.

End DirectoryResponder.

(* ================================================================= *)
(** * Further properties of the byte-range iterator *)

Section RangeContents.
Import PyFile FileIter.

(** An empty read of a positive size means the end of the file. *)
Lemma read_empty_eof (f f' : file) (size : Z) :
  0 < size ->
  read f size = Return ([], f') ->
  remainder f = [].
Proof.
  unfold read. destruct (size <? -1); [discriminate |].
  destruct (closed f); [discriminate |].
  intros Hsize H. injection H as Hchunk _.
  destruct (size <? 0) eqn:Hneg; [lia |].
  destruct (remainder f) as [| b rest]; [reflexivity |].
  destruct (Z.to_nat size) as [| n] eqn:Hn; [lia | discriminate].
Qed.

(** A read that leaves something behind returned all it was asked for. *)
Lemma read_full (f f' : file) (size : Z) (c : list byte) :
  0 <= size ->
  read f size = Return (c, f') ->
  remainder f' <> [] ->
  Z.of_nat (length c) = size.
Proof.
  intros Hsize Hr Hleft.
  pose proof (read_inv _ _ _ _ Hr) as (_ & _ & _ & Hsplit).
  unfold read in Hr. destruct (size <? -1); [discriminate |].
  destruct (closed f); [discriminate |].
  injection Hr as Hchunk _.
  destruct (size <? 0) eqn:Hneg; [lia |].
  assert (length (remainder f) = (length c + length (remainder f'))%nat) as Hlen
      by (rewrite Hsplit at 1; apply length_app).
  assert (length (remainder f') <> 0%nat) as Hpos
      by (destruct (remainder f'); [congruence | discriminate]).
  rewrite <- Hchunk, length_firstn. rewrite <- Hchunk, length_firstn in Hlen.
  lia.
Qed.

(** A loop that produced a chunk did not start at the end of the file. *)
Lemma read_loop_nonempty (bs : Z) (limit : option Z) (f f' : file)
    (c : list byte) (cs : list (list byte)) :
  RangeSpec.read_loop bs limit f (c :: cs) f' -> remainder f <> [].
Proof.
  intros H. inversion H; subst;
    match goal with
    | Hr : read f _ = Return (c, _), Hc : c <> [] |- _ =>
        apply read_inv in Hr; destruct Hr as (_ & _ & _ & Hsplit);
        rewrite Hsplit; destruct c; [congruence | discriminate]
    end.
Qed.

(** What the loop yields, glued together: everything left when there is
    no limit, the first [l] bytes left under the budget [l]. *)
Lemma read_loop_concat (bs : Z) (limit : option Z) (f f' : file)
    (cs : list (list byte)) :
  0 < bs ->
  RangeSpec.read_loop bs limit f cs f' ->
  match limit with
  | None => concat cs = remainder f
  | Some l => 0 <= l -> concat cs = firstn (Z.to_nat l) (remainder f)
  end.
Proof.
  intros Hbs H.
  induction H as [f f' Hr | f c f' cs f'' Hr Hc _ IH | l f f' Hr
                  | l f c f' Hr Hc Hl | l f c f' cs f'' Hr Hc Hl _ IH].
  - apply read_empty_eof in Hr; [| exact Hbs]. rewrite Hr. reflexivity.
  - apply read_inv in Hr. destruct Hr as (_ & _ & _ & Hsplit).
    cbn [concat]. rewrite IH, Hsplit. reflexivity.
  - intros Hl. destruct (Z.eq_dec l 0) as [-> | Hnz]; [reflexivity |].
    apply read_empty_eof in Hr; [| lia]. rewrite Hr.
    symmetry. apply firstn_nil.
  - intros Hl0.
    assert (0 <= Z.min bs l) as Hmin by lia.
    pose proof (read_at_most _ _ _ _ Hmin Hr) as Hmost.
    apply read_inv in Hr. destruct Hr as (_ & _ & _ & Hsplit).
    cbn [concat]. rewrite app_nil_r, Hsplit.
    replace (Z.to_nat l) with (length c + 0)%nat by lia.
    rewrite firstn_app_2. cbn [firstn]. symmetry. apply app_nil_r.
  - intros Hl0.
    assert (0 <= Z.min bs l) as Hmin by lia.
    pose proof (read_at_most _ _ _ _ Hmin Hr) as Hmost.
    apply read_inv in Hr. destruct Hr as (_ & _ & _ & Hsplit).
    cbn [concat]. rewrite IH by lia. rewrite Hsplit.
    replace (Z.to_nat l)
      with (length c + Z.to_nat (l - Z.of_nat (length c)))%nat by lia.
    rewrite firstn_app_2. reflexivity.
Qed.

(** Where the first read takes place. *)
Lemma range_start (seek limit : option Z) (bs : Z) (f f' : file)
    (cs : list (list byte)) :
  RangeSpec.range bs seek limit f cs f' ->
  exists f0,
    RangeSpec.read_loop bs
      (match seek with
       | Some s => if s =? 0 then limit else adjust limit s
       | None => limit
       end) f0 cs f'
    /\ remainder f0
       = skipn (match seek with
                | Some s => if s =? 0 then pos f else Z.to_nat s
                | None => pos f
                end) (data f).
Proof.
  intros H.
  destruct H as [limit f cs f' Hloop | limit f cs f' Hloop
                 | s f f0 cs f' Hs Hseek Hloop
                 | s l f f0 cs f' Hs Hseek Hloop].
  - exists f. split; [exact Hloop | reflexivity].
  - exists f. split; [exact Hloop | reflexivity].
  - apply Z.eqb_neq in Hs. rewrite Hs.
    apply seek_inv in Hseek. destruct Hseek as (_ & _ & ->).
    eexists. split; [exact Hloop | reflexivity].
  - apply Z.eqb_neq in Hs. rewrite Hs.
    apply seek_inv in Hseek. destruct Hseek as (_ & _ & ->).
    eexists. split; [exact Hloop | reflexivity].
Qed.

(** Without a limit the iteration gives back what lies between the
    starting offset and the end of the file. *)
Lemma iterate_unbounded (seek : option Z) (bs : Z) (f : file) :
  closed f = false ->
  legal_seek seek ->
  0 < bs ->
  let r := iterate seek None bs f in
  concat (chunks r)
    = skipn (match seek with
             | Some s => if s =? 0 then pos f else Z.to_nat s
             | None => pos f
             end) (data f)
  /\ end_of r = Exhausted
  /\ closed (file_of r) = true.
Proof.
  intros Hopen Hseek Hbs r. subst r.
  assert (sizes_accepted bs (budget seek None)) as Hsizes
      by (split; [lia |];
          destruct seek as [s |]; cbn [budget adjust];
          [destruct (s =? 0) |]; exact I).
  destruct (iterate_exhausts seek None bs f Hopen Hseek Hsizes)
    as (cs & f' & -> & Hrange).
  cbn [chunks end_of file_of close closed]. split; [| split; reflexivity].
  destruct (range_start _ _ _ _ _ _ Hrange) as (f0 & Hloop & <-).
  assert (match seek with
          | Some s => if s =? 0 then None else adjust None s
          | None => None
          end = @None Z) as E
      by (destruct seek as [s |]; [destruct (s =? 0) |]; reflexivity).
  rewrite E in Hloop.
  exact (read_loop_concat bs None f0 f' cs Hbs Hloop).
Qed.

(** X1.  Without a limit, the chunks of an iteration over an open file,
    glued together, are exactly the bytes from the starting offset (the
    seek when it is set and not zero, the current position otherwise) to
    the end of the file, and the handle is closed at the end. *)
Theorem unbounded_range_is_rest_of_file (seek : option Z) (bs : Z) (f : file) :
  closed f = false ->
  legal_seek seek ->
  0 < bs ->
  let r := iterate seek None bs f in
  concat (chunks r)
    = skipn (match seek with
             | Some s => if s =? 0 then pos f else Z.to_nat s
             | None => pos f
             end) (data f)
  /\ end_of r = Exhausted
  /\ closed (file_of r) = true.
Proof.
  exact (iterate_unbounded seek bs f).
Qed.

Lemma unbounded_range_is_rest_of_file_witness :
  concat (chunks (iterate (Some 12) None 5 (opened (Sample.counting 30))))
    = skipn 12 (Sample.counting 30).
Proof.
  destruct (unbounded_range_is_rest_of_file (Some 12) 5
              (opened (Sample.counting 30)) eq_refl ltac:(cbn; lia) ltac:(lia))
    as [H _].
  exact H.
Defined.

(** X2.  With a limit, a seek that is not negative and not past the limit,
    and a positive block size, the chunks glued together are the bytes of
    the file from the starting offset up to [limit - seek] bytes: on a file
    object at position 0, the bytes [seek, limit) that exist. *)
Theorem bounded_range_is_slice (s l bs : Z) (f : file) :
  closed f = false ->
  0 <= s <= l ->
  0 < bs ->
  let r := iterate (Some s) (Some l) bs f in
  concat (chunks r)
    = firstn (Z.to_nat (l - s))
        (skipn (if s =? 0 then pos f else Z.to_nat s) (data f))
  /\ end_of r = Exhausted
  /\ closed (file_of r) = true.
Proof.
  intros Hopen Hs Hbs r. subst r.
  assert (sizes_accepted bs (budget (Some s) (Some l))) as Hsizes
      by (split; [lia |]; cbn [budget adjust]; destruct (s =? 0); lia).
  destruct (iterate_exhausts (Some s) (Some l) bs f Hopen (proj1 Hs) Hsizes)
    as (cs & f' & -> & Hrange).
  cbn [chunks end_of file_of close closed]. split; [| split; reflexivity].
  destruct (range_start _ _ _ _ _ _ Hrange) as (f0 & Hloop & <-).
  destruct (s =? 0) eqn:E.
  - apply Z.eqb_eq in E. subst s. rewrite Z.sub_0_r.
    apply (read_loop_concat bs (Some l) f0 f' cs Hbs Hloop). lia.
  - cbn [adjust] in Hloop.
    apply (read_loop_concat bs (Some (l - s)) f0 f' cs Hbs Hloop). lia.
Qed.

Lemma bounded_range_is_slice_witness :
  concat (chunks (iterate (Some 7) (Some 19) 4 (opened (Sample.counting 30))))
    = firstn 12 (skipn 7 (Sample.counting 30)).
Proof.
  destruct (bounded_range_is_slice 7 19 4 (opened (Sample.counting 30))
              eq_refl ltac:(lia) ltac:(lia))
    as [H _].
  exact H.
Defined.

(** The shape of what the loop yields under a positive block size: no
    chunk is empty or longer than the block size, and every chunk but the
    last is a full block. *)
Lemma read_loop_shape (bs : Z) (limit : option Z) (f f' : file)
    (cs : list (list byte)) :
  0 < bs ->
  RangeSpec.read_loop bs limit f cs f' ->
  (match limit with Some l => 0 <= l | None => True end) ->
  Forall (fun c => c <> [] /\ Z.of_nat (length c) <= bs) cs
  /\ Forall (fun c => Z.of_nat (length c) = bs) (removelast cs).
Proof.
  intros Hbs H.
  induction H as [f f' Hr | f c f' cs f'' Hr Hc Hloop IH | l f f' Hr
                  | l f c f' Hr Hc Hl | l f c f' cs f'' Hr Hc Hl Hloop IH];
    intros Hlimit.
  - split; constructor.
  - destruct (IH I) as [IHall IHfull].
    assert (0 <= bs) as Hbs0 by lia.
    pose proof (read_at_most _ _ _ _ Hbs0 Hr) as Hmost.
    split; [constructor; [split; assumption | exact IHall] |].
    destruct cs as [| c2 cs]; [constructor |].
    change (removelast (c :: c2 :: cs)) with (c :: removelast (c2 :: cs)).
    constructor; [| exact IHfull].
    apply (read_full f f' bs c Hbs0 Hr).
    exact (read_loop_nonempty _ _ _ _ _ _ Hloop).
  - split; constructor.
  - assert (0 <= Z.min bs l) as Hmin by lia.
    pose proof (read_at_most _ _ _ _ Hmin Hr) as Hmost.
    split; [| constructor].
    constructor; [split; [exact Hc | lia] | constructor].
  - assert (0 <= Z.min bs l) as Hmin by lia.
    pose proof (read_at_most _ _ _ _ Hmin Hr) as Hmost.
    destruct IH as [IHall IHfull]; [lia |].
    split; [constructor; [split; [exact Hc | lia] | exact IHall] |].
    destruct cs as [| c2 cs]; [constructor |].
    change (removelast (c :: c2 :: cs)) with (c :: removelast (c2 :: cs)).
    constructor; [| exact IHfull].
    pose proof (read_full f f' _ c Hmin Hr
                  (read_loop_nonempty _ _ _ _ _ _ Hloop)) as Hfull.
    lia.
Qed.

(** X3.  On an open file, with a positive block size and a budget that is
    not negative, no chunk yielded is empty, none is longer than the block
    size, and every chunk except the last has exactly [block_size] bytes. *)
Theorem chunks_are_blocks (seek limit : option Z) (bs : Z) (f : file) :
  closed f = false ->
  legal_seek seek ->
  0 < bs ->
  match seek, limit with
  | Some s, Some l => s <= l
  | None, Some l => 0 <= l
  | _, None => True
  end ->
  let cs := chunks (iterate seek limit bs f) in
  Forall (fun c => c <> [] /\ Z.of_nat (length c) <= bs) cs
  /\ Forall (fun c => Z.of_nat (length c) = bs) (removelast cs).
Proof.
  intros Hopen Hseek Hbs Hlimit cs. subst cs.
  assert (sizes_accepted bs (budget seek limit)) as Hsizes.
  { split; [lia |].
    destruct seek as [s |], limit as [l |]; cbn [budget adjust legal_seek] in *;
      try destruct (s =? 0) eqn:E; try exact I; lia. }
  destruct (iterate_exhausts seek limit bs f Hopen Hseek Hsizes)
    as (cs & f' & -> & Hrange).
  cbn [chunks].
  destruct (range_start _ _ _ _ _ _ Hrange) as (f0 & Hloop & _).
  apply (read_loop_shape bs _ f0 f' cs Hbs Hloop).
  destruct seek as [s |], limit as [l |]; cbn [legal_seek adjust] in *;
    try destruct (s =? 0) eqn:E; cbn [adjust]; try exact I; lia.
Qed.

Lemma chunks_are_blocks_witness :
  let cs := chunks (iterate (Some 7) (Some 19) 5 (opened (Sample.counting 30))) in
  Forall (fun c => c <> [] /\ Z.of_nat (length c) <= 5) cs
  /\ Forall (fun c => Z.of_nat (length c) = 5) (removelast cs).
Proof.
  apply (chunks_are_blocks (Some 7) (Some 19) 5 (opened (Sample.counting 30)));
    [reflexivity | cbn; lia | lia | cbn; lia].
Defined.

(** An iteration over a closed file object fails at its first [next()]:
    at the seek when there is one, at the read otherwise; the read looks
    at the size it is asked for before it looks at the file. *)
Lemma iterate_closed (seek limit : option Z) (bs : Z) (f : file) :
  closed f = true ->
  let r := iterate seek limit bs f in
  chunks r = []
  /\ end_of r
     = Failed (if truthy seek then seek_closed_error
               else if read_size bs limit <? -1 then read_length_error
               else read_closed_error)
  /\ closed (file_of r) = true.
Proof.
  intros Hc r. subst r. rewrite iterate_eq.
  unfold start, loop_top, read, PyFile.seek. rewrite Hc.
  destruct seek as [s |]; [destruct (truthy (Some s)) |];
    try destruct (read_size bs limit <? -1);
    cbn [follow chunks end_of file_of close closed]; auto.
Qed.

(** On an open file with a legal seek the iteration ends with the
    generator finished and the file closed, whether it ended in
    [StopIteration] or in an exception of the read. *)
Lemma iterate_closes (seek limit : option Z) (bs : Z) (f : file) :
  closed f = false ->
  legal_seek seek ->
  let r := iterate seek limit bs f in
  gen_of r = Finished /\ closed (file_of r) = true.
Proof.
  intros Hopen Hl r. subst r. rewrite iterate_eq. unfold start.
  destruct seek as [s |];
    [cbn [truthy legal_seek] in *; destruct (s =? 0); cbn [negb];
     [| rewrite seek_open by assumption] |];
    match goal with
    | |- context [follow _ (loop_top ?lim bs ?f1)] =>
        apply (loop_ends bs (length (data f)) lim f1 (remainder_le f1))
    end.
Qed.

(** X4.  The sequence cannot be restarted: once an iteration over an open
    file has run to its end, the generator answers [StopIteration] to
    every further [next()], and any new iteration over the same file
    object, whatever its parameters, yields nothing and fails with a
    [ValueError]: "seek of closed file" when it seeks, "read of closed
    file" when it reads a size the read accepts. *)
Theorem iteration_is_single_use
    (seek limit seek' limit' : option Z) (bs bs' : Z) (f : file) :
  closed f = false ->
  legal_seek seek ->
  let r := iterate seek limit bs f in
  let again := iterate seek' limit' bs' (file_of r) in
  next (gen_of r) (file_of r) = (StopIteration, gen_of r, file_of r)
  /\ chunks again = []
  /\ (exists e, end_of again = Failed e /\ exn_cls e = ValueError)
  /\ (truthy seek' = true -> end_of again = Failed seek_closed_error)
  /\ (truthy seek' = false -> -1 <= read_size bs' limit' ->
      end_of again = Failed read_closed_error).
Proof.
  intros Hopen Hseek r again. subst again.
  destruct (iterate_closes seek limit bs f Hopen Hseek) as [Hg Hc].
  fold r in Hg, Hc. rewrite Hg. split; [reflexivity |].
  destruct (iterate_closed seek' limit' bs' (file_of r) Hc) as (H1 & H2 & _).
  split; [exact H1 |]. rewrite H2. split; [| split].
  - eexists. split; [reflexivity |].
    destruct (truthy seek'); [reflexivity |].
    destruct (read_size bs' limit' <? -1); reflexivity.
  - intros ->. reflexivity.
  - intros -> Hsize.
    destruct (read_size bs' limit' <? -1) eqn:E; [lia | reflexivity].
Qed.

Lemma iteration_is_single_use_witness :
  let r := iterate None None 8 (opened (Sample.counting 30)) in
  chunks (iterate None None 8 (file_of r)) = []
  /\ end_of (iterate None None 8 (file_of r)) = Failed read_closed_error
  /\ end_of (iterate (Some 4) None 8 (file_of r)) = Failed seek_closed_error.
Proof.
  intros r.
  destruct (iteration_is_single_use None None None None 8 8
              (opened (Sample.counting 30)) eq_refl I)
    as (_ & H1 & _ & _ & H2).
  destruct (iteration_is_single_use None None (Some 4) None 8 8
              (opened (Sample.counting 30)) eq_refl I)
    as (_ & _ & _ & H3 & _).
  split; [exact H1 |]. split; [apply H2; [reflexivity | cbn; lia] |].
  apply H3. reflexivity.
Defined.

(** X5.  On an open file the handle is closed at the end of the iteration
    exactly when the seek is legal: the seek runs before the [try], so a
    negative offset raises and leaves the file open. *)
Theorem closed_iff_legal_seek (seek limit : option Z) (bs : Z) (f : file) :
  closed f = false ->
  let r := iterate seek limit bs f in
  (closed (file_of r) = true <-> legal_seek seek)
  /\ (~ legal_seek seek ->
      chunks r = [] /\ end_of r = Failed invalid_argument /\ file_of r = f).
Proof.
  intros Hopen r.
  assert (~ legal_seek seek ->
          chunks r = [] /\ end_of r = Failed invalid_argument /\ file_of r = f)
    as Hbad.
  { intros Hill. subst r. destruct seek as [s |]; [| elim Hill; exact I].
    cbn [legal_seek] in Hill. rewrite iterate_eq.
    unfold start, PyFile.seek. rewrite Hopen. cbn [truthy].
    destruct (s =? 0) eqn:E; [lia |]. cbn [negb].
    destruct (s <? 0) eqn:E'; [| lia].
    cbn [follow chunks end_of file_of]. auto. }
  split; [| exact Hbad]. split.
  - intros Hclosed.
    assert (legal_seek seek \/ ~ legal_seek seek) as [Hl | Hill]
        by (destruct seek as [s |]; cbn [legal_seek]; [lia | auto]).
    + exact Hl.
    + destruct (Hbad Hill) as (_ & _ & Hf). rewrite Hf in Hclosed. congruence.
  - intros Hl. apply (iterate_closes seek limit bs f Hopen Hl).
Qed.

Lemma closed_iff_legal_seek_witness :
  let f := opened (Sample.counting 30) in
  closed (file_of (iterate (Some 3) None 8 f)) = true
  /\ closed (file_of (iterate (Some (-3)) None 8 f)) = false.
Proof.
  intros f.
  destruct (closed_iff_legal_seek (Some 3) None 8 f eq_refl) as [[_ Hok] _].
  destruct (closed_iff_legal_seek (Some (-3)) None 8 f eq_refl) as [_ Hbad].
  split; [apply Hok; cbn; lia |].
  destruct Hbad as (_ & _ & ->); [cbn; lia | reflexivity].
Defined.

(** After any number of pulls from the top of the loop the generator is
    finished with the file closed, or suspended at its [yield]. *)
Lemma follow_state (bs : Z) (k : nat) :
  forall (limit : option Z) (f : file),
    let r := follow k (loop_top limit bs f) in
    (gen_of r = Finished /\ closed (file_of r) = true)
    \/ (exists l b n, gen_of r = Suspended l b n).
Proof.
  induction k as [| k IH]; intros limit f r; subst r; unfold loop_top;
    (destruct (read f (read_size bs limit)) as [e | [c f']];
     [left; split; reflexivity |]);
    (destruct c as [| b c]; [left; split; reflexivity |]);
    cbn [follow].
  - right. cbn. eauto.
  - rewrite drain_S. cbn [next]. unfold resume.
    destruct limit as [l |];
      [destruct (l - Z.of_nat (length (b :: c)) <=? 0);
       [left; split; reflexivity |] |];
      match goal with
      | |- context [follow k (loop_top ?lim bs f')] =>
          destruct (IH lim f') as [[Hg Hc] | (l0 & b0 & n0 & Hg)];
          [left; split; assumption | right; cbn [gen_of]; eauto]
      end.
Qed.

(** X6.  Cleanup on early abandonment: on an open file with a legal seek,
    calling [close()] on the generator after any number of pulls, at least
    one, leaves the file closed, whether the sequence was exhausted or
    not.  A generator that was never pulled has not entered the [try], and
    closing it leaves the file open. *)
Theorem abandoned_iteration_closes
    (seek limit : option Z) (bs : Z) (f : file) (pulls : nat) :
  closed f = false ->
  legal_seek seek ->
  let g := app_iter_range seek limit bs in
  (let r := drain (S pulls) g f in
   closed (snd (gen_close (gen_of r) (file_of r))) = true)
  /\ snd (gen_close g f) = f.
Proof.
  intros Hopen Hseek g. split; [| reflexivity].
  subst g. unfold app_iter_range. rewrite drain_S. cbn [next].
  assert (exists lim f0, start seek limit bs f = loop_top lim bs f0)
    as (lim & f0 & ->).
  { unfold start. destruct seek as [s |]; [| eauto].
    cbn [truthy legal_seek] in *. destruct (s =? 0); cbn [negb]; [eauto |].
    rewrite seek_open by assumption. eauto. }
  destruct (follow_state bs pulls lim f0) as [[Hg Hc] | (l0 & b0 & n0 & Hg)];
    cbv zeta; rewrite Hg; cbn [gen_close snd]; [exact Hc | reflexivity].
Qed.

Lemma abandoned_iteration_closes_witness :
  let f := opened (Sample.counting 30) in
  let r := drain 2 (app_iter_range (Some 4) None 8) f in
  closed (snd (gen_close (gen_of r) (file_of r))) = true.
Proof.
  intros f.
  exact (proj1 (abandoned_iteration_closes (Some 4) None 8 f 1 eq_refl
                  ltac:(cbn; lia))).
Defined.

End RangeContents.

(* ================================================================= *)
(** * Further properties of the responders *)

Section Keywords.

Lemma has_key_get (k : string) (kw : kwargs) :
  has_key k kw = false <-> get_key k kw = None.
Proof.
  induction kw as [| [k' v] kw IH]; cbn [has_key get_key]; [tauto |].
  destruct (String.eqb k k'); cbn [orb]; [split; discriminate | exact IH].
Qed.

Lemma get_key_app (k : string) (kw kw' : kwargs) :
  get_key k (kw ++ kw')
  = match get_key k kw with
    | Some v => Some v
    | None => get_key k kw'
    end.
Proof.
  induction kw as [| [k' v] kw IH]; cbn [app get_key]; [reflexivity |].
  destruct (String.eqb k k'); [reflexivity | exact IH].
Qed.

(** [setdefault] keeps what is there and fills what is missing. *)
Lemma get_key_setdefault (k k' : string) (v : value) (kw : kwargs) :
  get_key k (setdefault k' v kw)
  = match get_key k kw with
    | Some x => Some x
    | None => if String.eqb k k' then Some v else None
    end.
Proof.
  unfold setdefault. destruct (has_key k' kw) eqn:Hk.
  - destruct (get_key k kw) eqn:Hg; [reflexivity |].
    destruct (String.eqb_spec k k') as [-> | _]; [| reflexivity].
    apply has_key_get in Hg. congruence.
  - rewrite get_key_app. cbn [get_key]. reflexivity.
Qed.

Lemma fileapp_filename (rt : runtime) (filename : string) (kw : kwargs) :
  FileApp.filename (FileApp.__init__ rt filename kw) = filename.
Proof.
  unfold FileApp.__init__. destruct (guess_type rt filename). reflexivity.
Qed.

(** X7.  The keyword arguments of a file responder: whatever the caller
    passed is kept as passed (a caller's [content_type] wins over the
    guess), the three defaults fill in only where the caller passed
    nothing ([content_type] and [content_encoding] from
    [mimetypes.guess_type(filename)], [accept_ranges] as ["bytes"]), and no
    other key appears. *)
Theorem fileapp_kw_defaults (rt : runtime) (filename : string) (kw : kwargs)
    (k : string) :
  let self := FileApp.__init__ rt filename kw in
  FileApp.filename self = filename
  /\ get_key k (FileApp.kw self)
     = match get_key k kw with
       | Some v => Some v
       | None =>
           if String.eqb k "content_type"
           then Some (of_option (fst (guess_type rt filename)))
           else if String.eqb k "content_encoding"
           then Some (of_option (snd (guess_type rt filename)))
           else if String.eqb k "accept_ranges"
           then Some (VStr "bytes")
           else None
       end.
Proof.
  unfold FileApp.__init__.
  destruct (guess_type rt filename) as [content_type content_encoding].
  cbn [FileApp.filename FileApp.kw fst snd]. split; [reflexivity |].
  rewrite !get_key_setdefault.
  destruct (get_key k kw); [reflexivity |].
  destruct (String.eqb k "content_type"); [reflexivity |].
  destruct (String.eqb k "content_encoding"); reflexivity.
Qed.

Lemma fileapp_kw_defaults_witness :
  let self := FileApp.__init__ Sample.site "/srv/www/index.html"
                [("content_type", VStr "text/plain")] in
  get_key "content_type" (FileApp.kw self) = Some (VStr "text/plain")
  /\ get_key "accept_ranges" (FileApp.kw self) = Some (VStr "bytes")
  /\ get_key "etag" (FileApp.kw self) = None.
Proof.
  intros self. split; [| split].
  - exact (proj2 (fileapp_kw_defaults Sample.site "/srv/www/index.html"
                    [("content_type", VStr "text/plain")] "content_type")).
  - exact (proj2 (fileapp_kw_defaults Sample.site "/srv/www/index.html"
                    [("content_type", VStr "text/plain")] "accept_ranges")).
  - exact (proj2 (fileapp_kw_defaults Sample.site "/srv/www/index.html"
                    [("content_type", VStr "text/plain")] "etag")).
Defined.

End Keywords.

Section Serving.
Import PyStr.

(** Draining a fresh generator over a freshly opened file, whatever the
    positive block size, gives the contents back. *)
Lemma whole_file_in_blocks (bs : Z) (contents : list byte) :
  0 < bs ->
  let r := FileIter.drain (S (length contents))
             (FileIter.app_iter_range None None bs) (PyFile.opened contents) in
  concat (FileIter.chunks r) = contents
  /\ FileIter.end_of r = FileIter.Exhausted
  /\ PyFile.closed (FileIter.file_of r) = true.
Proof.
  intros Hbs.
  exact (iterate_unbounded None bs (PyFile.opened contents) eq_refl I Hbs).
Qed.

(** X8.  Serving a file end to end: for GET and HEAD, when [os.stat] and
    [open] succeed and the call of [Response] goes through (no keyword of
    the responder repeats [app_iter], [content_length] or [last_modified],
    and the constructor accepts the keywords), the response carries the
    size and the modification time of the stat and the responder's
    keywords, and iterating its body with [__iter__] yields chunks that,
    glued together, are exactly the contents of the file, after which the
    handle is closed. *)
Theorem served_body_is_file_contents
    (rt : runtime) (self : FileApp.t) (req : request)
    (st : stat_result) (contents : list byte) :
  method req = "GET" \/ method req = "HEAD" ->
  os_stat rt (FileApp.filename self) = Return st ->
  open_rb rt (FileApp.filename self) = Return contents ->
  clash ["app_iter"; "content_length"; "last_modified"] (FileApp.kw self)
    = None ->
  response_init rt (FileApp.kw self) = None ->
  exists body,
    fst (FileApp.__call__ rt self req)
      = Return (ConditionalResponse body (st_size st) (st_mtime st)
                  (FileApp.kw self))
    /\ let r := FileIter.drain (S (length contents)) FileIter.__iter__ body in
       concat (FileIter.chunks r) = contents
       /\ FileIter.end_of r = FileIter.Exhausted
       /\ PyFile.closed (FileIter.file_of r) = true.
Proof.
  intros Hm Hstat Hopen Hclash Hinit. apply method_allowed_iff in Hm.
  exists (PyFile.opened contents). split.
  - unfold FileApp.__call__, FileApp.Response.
    rewrite Hm, Hstat, Hopen, Hclash, Hinit. reflexivity.
  - unfold FileIter.__iter__.
    apply whole_file_in_blocks. reflexivity.
Qed.

Lemma served_body_is_file_contents_witness :
  exists body,
    fst (FileApp.__call__ Sample.site
           (FileApp.__init__ Sample.site "/srv/www/index.html" [])
           (Sample.GET "/index.html"))
      = Return (ConditionalResponse body 5 0
                  [("content_type", VNone); ("content_encoding", VNone);
                   ("accept_ranges", VStr "bytes")])
    /\ concat (FileIter.chunks (FileIter.drain 6 FileIter.__iter__ body))
       = Sample.counting 5.
Proof.
  destruct (served_body_is_file_contents Sample.site
              (FileApp.__init__ Sample.site "/srv/www/index.html" [])
              (Sample.GET "/index.html")
              (mk_stat S_IFREG 5 0) (Sample.counting 5)
              (or_introl eq_refl) eq_refl eq_refl eq_refl eq_refl)
    as (body & Hanswer & Hbody & _).
  exists body. split; [exact Hanswer | exact Hbody].
Defined.

(** X18.  The file responder looks at nothing of the request but whether
    its method is GET or HEAD: HEAD is served like GET, the file is opened
    for it too, and the path-info plays no role. *)
Theorem fileapp_ignores_request
    (rt : runtime) (self : FileApp.t) (req req' : request) :
  method req = "GET" \/ method req = "HEAD" ->
  method req' = "GET" \/ method req' = "HEAD" ->
  FileApp.__call__ rt self req = FileApp.__call__ rt self req'.
Proof.
  intros H H'. apply method_allowed_iff in H, H'.
  unfold FileApp.__call__. rewrite H, H'. reflexivity.
Qed.

Lemma fileapp_ignores_request_witness :
  FileApp.__call__ Sample.site
    (FileApp.__init__ Sample.site "/srv/www/index.html" [])
    (mk_request "HEAD" "/elsewhere")
  = FileApp.__call__ Sample.site
      (FileApp.__init__ Sample.site "/srv/www/index.html" [])
      (mk_request "GET" "/index.html").
Proof.
  apply fileapp_ignores_request; [right | left]; reflexivity.
Defined.

End Serving.

(* ================================================================= *)
(** * Properties of the path functions *)

Section Paths.
Import PyStr PosixPath.

Lemma split_not_nil (s : string) (sep : ascii) : split s sep <> [].
Proof.
  destruct s as [| c s]; cbn [split]; [discriminate |].
  destruct (Ascii.eqb c sep); [discriminate |].
  destruct (split s sep); discriminate.
Qed.

(** Splitting at a separator splits both sides. *)
Lemma split_app (x y : string) :
  split (x ++ String sep_char y) sep_char
  = split x sep_char ++ split y sep_char.
Proof.
  induction x as [| c x IH]; [reflexivity |].
  cbn [append split]. destruct (Ascii.eqb c sep_char).
  - cbn [app]. f_equal. exact IH.
  - rewrite IH.
    destruct (split x sep_char) as [| w ws] eqn:E;
      [elim (split_not_nil _ _ E) | reflexivity].
Qed.

Lemma split_slash_free (w : string) :
  mem sep_char w = false -> split w sep_char = [w].
Proof.
  induction w as [| c w IH]; [reflexivity |].
  cbn [mem split]. rewrite Ascii.eqb_sym.
  destruct (Ascii.eqb c sep_char); cbn [orb]; [discriminate |].
  intros H. rewrite (IH H). reflexivity.
Qed.

Lemma mem_first (c : ascii) (w : string) :
  mem sep_char (String c w) = false -> c <> sep_char.
Proof.
  cbn [mem]. intros H ->. rewrite Ascii.eqb_refl in H. discriminate.
Qed.

Lemma join_cons (c c' : string) (rest : list string) :
  PyStr.join "/" (c :: c' :: rest)
  = (c ++ String sep_char (PyStr.join "/" (c' :: rest)))%string.
Proof.
  reflexivity.
Qed.

(** Joining plain components and splitting again gives them back. *)
Lemma split_join (comps : list string) :
  comps <> [] ->
  Forall plain comps ->
  split (PyStr.join "/" comps) sep_char = comps.
Proof.
  induction comps as [| c comps IH]; [congruence |].
  intros _ Hall. inversion Hall as [| ? ? (_ & _ & _ & Hc) Hrest]; subst.
  destruct comps as [| c' rest].
  - apply split_slash_free. exact Hc.
  - rewrite join_cons, split_app, (split_slash_free c Hc).
    cbn [app]. f_equal. apply IH; [discriminate | exact Hrest].
Qed.

(** A plain component is appended. *)
Lemma norm_step_plain (k : nat) (acc : list string) (c : string) :
  plain c -> norm_step k acc c = acc ++ [c].
Proof.
  intros (H1 & H2 & H3 & _). unfold norm_step.
  apply String.eqb_neq in H1, H2, H3. rewrite H1, H2, H3. reflexivity.
Qed.

Lemma fold_plain (k : nat) (comps acc : list string) :
  Forall plain comps ->
  fold_left (norm_step k) comps acc = acc ++ comps.
Proof.
  revert acc. induction comps as [| c comps IH]; intros acc Hall.
  - symmetry. apply app_nil_r.
  - inversion Hall; subst. cbn [fold_left].
    rewrite norm_step_plain by assumption.
    rewrite IH by assumption. rewrite <- app_assoc. reflexivity.
Qed.

Lemma Forall_removelast (A : Type) (P : A -> Prop) (l : list A) :
  Forall P l -> Forall P (removelast l).
Proof.
  induction 1 as [| a l Ha Hl IH]; [constructor |].
  destruct l as [| b l]; [constructor |].
  change (removelast (a :: b :: l)) with (a :: removelast (b :: l)).
  constructor; assumption.
Qed.

Lemma last_In (A : Type) (l : list A) (d : A) :
  l <> [] -> In (last l d) l.
Proof.
  induction l as [| a l IH]; [congruence |].
  intros _. destruct l as [| b l]; [left; reflexivity |].
  right. apply IH. discriminate.
Qed.

(** Under an absolute path the components kept so far stay plain: a
    [".."] removes the last one and is never kept. *)
Lemma norm_step_absolute (k : nat) (acc : list string) (c : string) :
  k <> 0%nat ->
  mem sep_char c = false ->
  Forall plain acc ->
  Forall plain (norm_step k acc c).
Proof.
  intros Hk Hc Hacc. unfold norm_step.
  destruct (String.eqb_spec c "") as [| H1]; [exact Hacc |].
  destruct (String.eqb_spec c ".") as [| H2]; [exact Hacc |].
  cbn [orb].
  destruct (String.eqb_spec c "..") as [-> | H3]; cbn [negb orb].
  - destruct (Nat.eqb_spec k 0) as [| _]; [contradiction |]. cbn [andb orb].
    destruct acc as [| a acc]; [constructor |].
    cbn [is_nil negb andb].
    destruct (String.eqb_spec (last (a :: acc) "") "..") as [E | _].
    + exfalso.
      assert (In (last (a :: acc) "") (a :: acc)) as Hin
          by (apply last_In; discriminate).
      rewrite Forall_forall in Hacc. destruct (Hacc _ Hin) as (_ & _ & N & _).
      contradiction.
    + apply Forall_removelast. exact Hacc.
  - apply Forall_app. split; [exact Hacc |].
    constructor; [| constructor]. repeat split; assumption.
Qed.

Lemma split_no_sep (s : string) :
  Forall (fun w => mem sep_char w = false) (split s sep_char).
Proof.
  induction s as [| c s IH]; cbn [split]; [repeat constructor |].
  destruct (Ascii.eqb c sep_char) eqn:E.
  - constructor; [reflexivity | exact IH].
  - destruct (split s sep_char) as [| w ws]; [repeat constructor |].
    + cbn [mem]. rewrite Ascii.eqb_sym, E. reflexivity.
    + inversion IH; subst. constructor; [| assumption].
      cbn [mem]. rewrite Ascii.eqb_sym, E. assumption.
Qed.

Lemma fold_absolute (k : nat) (comps acc : list string) :
  k <> 0%nat ->
  Forall (fun w => mem sep_char w = false) comps ->
  Forall plain acc ->
  Forall plain (fold_left (norm_step k) comps acc).
Proof.
  intros Hk. revert acc.
  induction comps as [| c comps IH]; intros acc Hcomps Hacc; [exact Hacc |].
  inversion Hcomps; subst. cbn [fold_left].
  apply IH; [assumption |]. apply norm_step_absolute; assumption.
Qed.

Lemma initial_slashes_absolute (p : string) :
  startswith p sep = true ->
  initial_slashes p = 1%nat \/ initial_slashes p = 2%nat.
Proof.
  intros H. unfold initial_slashes. rewrite H.
  destruct (startswith p (times sep 2) && negb (startswith p (times sep 3)));
    auto.
Qed.

(** The shape of [normpath] on an absolute path. *)
Lemma normpath_absolute (p : string) :
  startswith p sep = true ->
  exists comps,
    Forall plain comps
    /\ comps = fold_left (norm_step (initial_slashes p)) (split p sep_char) []
    /\ normpath p
       = (times sep (initial_slashes p) ++ PyStr.join sep comps)%string.
Proof.
  intros Habs.
  destruct (initial_slashes_absolute p Habs) as [Hk | Hk].
  - eexists. split; [| split; [reflexivity |]].
    + apply fold_absolute; [lia | apply split_no_sep | constructor].
    + unfold normpath. destruct p as [| c p]; [discriminate |].
      cbn [String.eqb]. rewrite Hk. reflexivity.
  - eexists. split; [| split; [reflexivity |]].
    + apply fold_absolute; [lia | apply split_no_sep | constructor].
    + unfold normpath. destruct p as [| c p]; [discriminate |].
      cbn [String.eqb]. rewrite Hk. reflexivity.
Qed.

Lemma split_sep (s : string) :
  split (String "/" s) sep_char = "" :: split s sep_char.
Proof.
  reflexivity.
Qed.

Lemma fold_skip_empty (k : nat) (comps acc : list string) :
  fold_left (norm_step k) ("" :: comps) acc = fold_left (norm_step k) comps acc.
Proof.
  reflexivity.
Qed.

Lemma join_head (a : ascii) (c : string) (rest : list string) :
  exists t, PyStr.join "/" (String a c :: rest) = String a t.
Proof.
  destruct rest as [| c' rest]; [exists c; reflexivity |].
  rewrite join_cons. eexists. reflexivity.
Qed.

Lemma initial_slashes_one (a : ascii) (t : string) :
  a <> "/"%char -> initial_slashes (String "/" (String a t)) = 1%nat.
Proof.
  intros Ha. unfold initial_slashes, startswith, sep, sep_char in *.
  cbn [times append prefix].
  destruct (ascii_dec "/" "/") as [_ | N]; [| congruence].
  destruct (ascii_dec "/" a) as [E | _]; [congruence | reflexivity].
Qed.

Lemma initial_slashes_two (a : ascii) (t : string) :
  a <> "/"%char ->
  initial_slashes (String "/" (String "/" (String a t))) = 2%nat.
Proof.
  intros Ha. unfold initial_slashes, startswith, sep, sep_char in *.
  cbn [times append prefix].
  destruct (ascii_dec "/" "/") as [_ | N]; [| congruence].
  destruct (ascii_dec "/" a) as [E | _]; [congruence | reflexivity].
Qed.

(** One or two slashes in front of plain components: [normpath] has
    nothing left to do. *)
Lemma normpath_normal (k : nat) (comps : list string) :
  k = 1%nat \/ k = 2%nat ->
  Forall plain comps ->
  normpath (times sep k ++ PyStr.join sep comps)
  = (times sep k ++ PyStr.join sep comps)%string.
Proof.
  intros Hk Hall. destruct comps as [| c rest].
  - destruct Hk as [-> | ->]; reflexivity.
  - assert (split (PyStr.join sep (c :: rest)) sep_char = c :: rest) as Hsplit
        by (apply split_join; [discriminate | exact Hall]).
    pose proof (fold_plain k (c :: rest) [] Hall) as Hfold. cbn [app] in Hfold.
    inversion Hall as [| ? ? (Hne & _ & _ & Hfree) _]; subst.
    destruct c as [| a c]; [congruence |].
    apply mem_first in Hfree.
    destruct (join_head a c rest) as (t & Ht).
    unfold sep in *. rewrite Ht in *.
    destruct Hk as [-> | ->]; cbn [times append] in *; unfold normpath;
      cbn [String.eqb].
    + rewrite (initial_slashes_one a t Hfree).
      rewrite split_sep, Hsplit, fold_skip_empty, Hfold. cbn [Nat.eqb]. unfold sep. rewrite Ht. reflexivity.
    + rewrite (initial_slashes_two a t Hfree).
      rewrite !split_sep, Hsplit, !fold_skip_empty, Hfold. cbn [Nat.eqb]. unfold sep. rewrite Ht. reflexivity.
Qed.

Lemma isabs_times (k : nat) (s : string) :
  k = 1%nat \/ k = 2%nat -> isabs (times sep k ++ s) = true.
Proof.
  intros [-> | ->]; unfold isabs, startswith, sep; cbn [times append prefix];
    (destruct (ascii_dec "/" "/") as [_ | N]; [| congruence]).
  - destruct s; reflexivity.
  - destruct (ascii_dec "/" "/") as [_ | N]; reflexivity.
Qed.

(** On an absolute path [normpath] returns one or two slashes
    followed by components joined with single slashes, none of which is
    empty, ["."] or [".."]: no dot-dot survives, and the result is again
    absolute. *)
Theorem normpath_absolute_is_normal (p : string) :
  isabs p = true ->
  exists k comps,
    (k = 1%nat \/ k = 2%nat)
    /\ Forall plain comps
    /\ normpath p = (times sep k ++ PyStr.join sep comps)%string
    /\ isabs (normpath p) = true.
Proof.
  intros Habs. unfold isabs in Habs.
  destruct (normpath_absolute p Habs) as (comps & Hall & _ & Hnorm).
  exists (initial_slashes p), comps.
  pose proof (initial_slashes_absolute p Habs) as Hk.
  split; [exact Hk |]. split; [exact Hall |]. split; [exact Hnorm |].
  rewrite Hnorm. apply isabs_times. exact Hk.
Qed.

Lemma normpath_absolute_is_normal_witness :
  exists k comps,
    (k = 1%nat \/ k = 2%nat)
    /\ Forall plain comps
    /\ normpath "/srv/www/../../etc/./passwd"
       = (times sep k ++ PyStr.join sep comps)%string
    /\ isabs (normpath "/srv/www/../../etc/./passwd") = true.
Proof.
  exact (normpath_absolute_is_normal "/srv/www/../../etc/./passwd" eq_refl).
Defined.

(** [normpath] is idempotent on absolute paths. *)
Theorem normpath_idempotent (p : string) :
  isabs p = true ->
  normpath (normpath p) = normpath p.
Proof.
  intros Habs. unfold isabs in Habs.
  destruct (normpath_absolute p Habs) as (comps & Hall & _ & Hnorm).
  rewrite Hnorm.
  apply normpath_normal; [apply initial_slashes_absolute; exact Habs | exact Hall].
Qed.

Lemma normpath_idempotent_witness :
  normpath (normpath "//a/./b/../c/") = normpath "//a/./b/../c/".
Proof.
  exact (normpath_idempotent "//a/./b/../c/" eq_refl).
Defined.

Lemma prefix_empty (s : string) : String.prefix "" s = true.
Proof.
  destruct s; reflexivity.
Qed.

Lemma isabs_app (a x : string) :
  isabs a = true -> isabs (a ++ x) = true.
Proof.
  unfold isabs, startswith, sep. destruct a as [| c a]; [discriminate |].
  cbn [append prefix]. destruct (ascii_dec "/" c); [| discriminate].
  intros _. apply prefix_empty.
Qed.

Lemma join_absolute (a b : string) :
  isabs a = true -> isabs (join a b) = true.
Proof.
  intros Ha. unfold join.
  destruct (startswith b sep) eqn:Hb; [exact Hb |].
  destruct (String.eqb a "" || endswith a sep); apply isabs_app; exact Ha.
Qed.

(** What [abspath] hands to [normpath] is absolute when the working
    directory is. *)
Lemma abspath_argument (cwd p : string) :
  isabs cwd = true ->
  isabs (if isabs p then p else join cwd p) = true.
Proof.
  intros Hcwd. destruct (isabs p) eqn:Hp; [exact Hp |].
  apply join_absolute. exact Hcwd.
Qed.

Lemma abspath_absolute (cwd p : string) :
  isabs cwd = true -> isabs (abspath cwd p) = true.
Proof.
  intros Hcwd. unfold abspath.
  pose proof (abspath_argument cwd p Hcwd) as Harg.
  set (q := if isabs p then p else join cwd p) in *.
  destruct (normpath_absolute q Harg) as (comps & _ & _ & ->).
  apply isabs_times. apply initial_slashes_absolute. exact Harg.
Qed.

(** X11.  With an absolute working directory, [abspath] returns a path in
    normal form whatever it is given: one or two slashes followed by
    components joined with single slashes, none of which is empty, ["."]
    or [".."]. *)
Theorem abspath_is_normal (cwd p : string) :
  isabs cwd = true ->
  exists k comps,
    (k = 1%nat \/ k = 2%nat)
    /\ Forall plain comps
    /\ abspath cwd p = (times sep k ++ PyStr.join sep comps)%string.
Proof.
  intros Hcwd. unfold abspath.
  pose proof (abspath_argument cwd p Hcwd) as Harg.
  set (q := if isabs p then p else join cwd p) in *.
  destruct (normpath_absolute q Harg) as (comps & Hall & _ & Hnorm).
  exists (initial_slashes q), comps.
  split; [apply initial_slashes_absolute; exact Harg |].
  split; [exact Hall | exact Hnorm].
Qed.

Lemma abspath_is_normal_witness :
  exists k comps,
    (k = 1%nat \/ k = 2%nat)
    /\ Forall plain comps
    /\ abspath "/home/web" "../../etc/./passwd"
       = (times sep k ++ PyStr.join sep comps)%string.
Proof.
  exact (abspath_is_normal "/home/web" "../../etc/./passwd" eq_refl).
Defined.

(** X12.  With an absolute working directory, [abspath] returns an
    absolute path and is idempotent: the working directory plays no role
    the second time. *)
Theorem abspath_idempotent (cwd p : string) :
  isabs cwd = true ->
  isabs (abspath cwd p) = true
  /\ abspath cwd (abspath cwd p) = abspath cwd p
  /\ forall cwd', abspath cwd' (abspath cwd p) = abspath cwd p.
Proof.
  intros Hcwd.
  pose proof (abspath_absolute cwd p Hcwd) as Habs.
  assert (forall cwd', abspath cwd' (abspath cwd p) = abspath cwd p) as Hany.
  { intros cwd'. unfold abspath at 1. rewrite Habs.
    unfold abspath.
    pose proof (abspath_argument cwd p Hcwd) as Harg.
    set (q := if isabs p then p else join cwd p) in *.
    destruct (normpath_absolute q Harg) as (comps & Hall & _ & ->).
    apply normpath_normal;
      [apply initial_slashes_absolute; exact Harg | exact Hall]. }
  split; [exact Habs |]. split; [apply Hany | exact Hany].
Qed.

Lemma abspath_idempotent_witness :
  abspath "/home/web" (abspath "/home/web" "static/../media/./img")
  = abspath "/home/web" "static/../media/./img".
Proof.
  exact (proj1 (proj2 (abspath_idempotent "/home/web" "static/../media/./img"
                         eq_refl))).
Defined.

(** After [lstrip('/')] nothing starts with a slash. *)
Lemma lstrip_not_absolute (s : string) :
  startswith (lstrip s "/") sep = false.
Proof.
  induction s as [| c s IH]; [reflexivity |].
  cbn [lstrip mem]. destruct (Ascii.eqb_spec c "/") as [-> | Hc]; cbn [orb].
  - exact IH.
  - unfold startswith, sep. cbn [prefix].
    destruct (ascii_dec "/" c) as [E | _]; [congruence | reflexivity].
Qed.

(** The root of a constructed responder is absolute when the working
    directory is. *)
Lemma root_absolute (rt : runtime) (root : string) (kw : kwargs)
    (self : DirectoryApp.t) :
  isabs (getcwd rt) = true ->
  DirectoryApp.__init__ rt root kw = Return self ->
  isabs (DirectoryApp.path self) = true.
Proof.
  intros Hcwd. unfold DirectoryApp.__init__.
  pose proof (abspath_absolute (getcwd rt) root Hcwd) as Habs.
  destruct (endswith (abspath (getcwd rt) root) sep); cbn [negb].
  - destruct (isdir rt _); [| discriminate].
    intros H. injection H as <-. exact Habs.
  - destruct (isdir rt _); [| discriminate].
    intros H. injection H as <-. cbn [DirectoryApp.path].
    apply isabs_app. exact Habs.
Qed.

(** The candidate is [normpath] of the root followed by the stripped
    path-info. *)
Lemma candidate_rooted (rt : runtime) (root : string) (kw : kwargs)
    (self : DirectoryApp.t) (req : request) :
  isabs (getcwd rt) = true ->
  DirectoryApp.__init__ rt root kw = Return self ->
  DirectoryApp.candidate rt self req
  = normpath (DirectoryApp.path self ++ lstrip (path_info req) "/")
  /\ isabs (DirectoryApp.path self ++ lstrip (path_info req) "/") = true.
Proof.
  intros Hcwd Hinit.
  pose proof (root_absolute _ _ _ _ Hcwd Hinit) as Habs.
  destruct (init_inv _ _ _ _ Hinit) as (_ & Hend & _).
  unfold DirectoryApp.candidate, abspath, join.
  rewrite lstrip_not_absolute, Hend, orb_true_r.
  rewrite (isabs_app _ _ Habs). split; reflexivity.
Qed.

(** X13.  With an absolute working directory, the path a request resolves
    to is [normpath] of the root followed by the path-info without its
    leading slashes: an absolute path-info cannot replace the root, the
    working directory plays no role, and the candidate is absolute with no
    empty, ["."] or [".."] component left in it. *)
Theorem candidate_is_normal (rt : runtime) (root : string) (kw : kwargs)
    (self : DirectoryApp.t) (req : request) :
  isabs (getcwd rt) = true ->
  DirectoryApp.__init__ rt root kw = Return self ->
  DirectoryApp.candidate rt self req
  = normpath (DirectoryApp.path self ++ lstrip (path_info req) "/")
  /\ exists k comps,
       (k = 1%nat \/ k = 2%nat)
       /\ Forall plain comps
       /\ DirectoryApp.candidate rt self req
          = (times sep k ++ PyStr.join sep comps)%string.
Proof.
  intros Hcwd Hinit.
  destruct (candidate_rooted rt root kw self req Hcwd Hinit) as [Hcand Habs].
  split; [exact Hcand |]. rewrite Hcand. unfold isabs in Habs.
  destruct (normpath_absolute _ Habs) as (comps & Hall & _ & Hnorm).
  exists (initial_slashes
            (DirectoryApp.path self ++ lstrip (path_info req) "/")), comps.
  split; [apply initial_slashes_absolute; exact Habs |].
  split; [exact Hall | exact Hnorm].
Qed.

Lemma candidate_is_normal_witness :
  DirectoryApp.candidate Sample.site (DirectoryApp.mk "/srv/www/" [])
    (Sample.GET "//etc/../../passwd")
  = normpath "/srv/www/etc/../../passwd".
Proof.
  exact (proj1 (candidate_is_normal Sample.site "/srv/www" []
                  (DirectoryApp.mk "/srv/www/" [])
                  (Sample.GET "//etc/../../passwd") eq_refl eq_refl)).
Defined.

(** A separator at the end adds one empty component, which [normpath]
    skips. *)
Lemma normpath_trailing_sep (q : string) :
  q <> "" ->
  initial_slashes (q ++ "/") = initial_slashes q ->
  normpath (q ++ "/") = normpath q.
Proof.
  intros Hq Hk. unfold normpath. rewrite Hk.
  destruct q as [| c q]; [congruence |].
  cbn [append String.eqb].
  change (String c (q ++ "/")) with (String c q ++ String sep_char "")%string.
  rewrite split_app, fold_left_app. reflexivity.
Qed.

Lemma initial_slashes_trailing (q : string) :
  q <> "" -> q <> "/" -> q <> "//" ->
  initial_slashes (q ++ "/") = initial_slashes q.
Proof.
  intros H0 H1 H2. unfold initial_slashes, startswith, sep.
  destruct q as [| a [| b [| c q]]]; cbn [times append prefix];
    repeat match goal with
           | |- context [ascii_dec ?x ?y] =>
               destruct (ascii_dec x y); subst; cbn [andb negb]
           end;
    rewrite ?prefix_empty; cbn [andb negb]; congruence.
Qed.

(** X14.  A trailing slash on the root makes no difference: constructing
    the responder for an absolute root with or without it gives the same
    responder, or fails alike.  The roots ["/"] and ["//"] are the
    exceptions. *)
Theorem root_trailing_slash (rt : runtime) (root : string) (kw : kwargs) :
  isabs root = true ->
  root <> "/" -> root <> "//" ->
  DirectoryApp.__init__ rt (root ++ "/") kw = DirectoryApp.__init__ rt root kw.
Proof.
  intros Habs H1 H2.
  assert (root <> "") as H0 by (intros ->; discriminate).
  unfold DirectoryApp.__init__, abspath.
  rewrite (isabs_app _ "/" Habs), Habs.
  rewrite normpath_trailing_sep;
    [reflexivity | exact H0 | apply initial_slashes_trailing; assumption].
Qed.

Lemma root_trailing_slash_witness :
  DirectoryApp.__init__ Sample.site "/srv/www/" []
  = DirectoryApp.__init__ Sample.site "/srv/www" []
  /\ DirectoryApp.__init__ Sample.site "/srv/www" []
     = Return (DirectoryApp.mk "/srv/www/" []).
Proof.
  split; [| reflexivity].
  apply (root_trailing_slash Sample.site "/srv/www" []);
    [reflexivity | discriminate | discriminate].
Defined.

Lemma last_app_nonempty (A : Type) (pre l : list A) (d : A) :
  l <> [] -> last (pre ++ l) d = last l d.
Proof.
  intros Hl. rewrite (app_removelast_last d Hl) at 1.
  rewrite app_assoc. apply last_last.
Qed.

Lemma split_times (k : nat) (s : string) :
  split (times sep k ++ s) sep_char = repeat "" k ++ split s sep_char.
Proof.
  induction k as [| k IH]; [reflexivity |].
  cbn [times repeat app]. unfold sep at 1. cbn [append].
  rewrite split_sep. f_equal. exact IH.
Qed.

(** A normal path with a component in it does not end with a slash. *)
Lemma normal_no_trailing_sep (k : nat) (rc : list string) :
  rc <> [] ->
  Forall plain rc ->
  endswith (times sep k ++ PyStr.join sep rc) sep = false.
Proof.
  intros Hrc Hall.
  destruct (endswith (times sep k ++ PyStr.join sep rc) sep) eqn:E;
    [| reflexivity].
  exfalso. apply endswith_sep in E. destruct E as (stem & Hstem).
  assert (last (split (times sep k ++ PyStr.join sep rc) sep_char) "." = "")
    as Hlast.
  { rewrite Hstem.
    change (stem ++ "/")%string with (stem ++ String sep_char "")%string.
    rewrite split_app. cbn [split]. apply last_last. }
  rewrite split_times in Hlast. unfold sep in Hlast.
  rewrite (split_join rc Hrc Hall) in Hlast.
  rewrite last_app_nonempty in Hlast by exact Hrc.
  assert (In (last rc ".") rc) as Hin by (apply last_In; exact Hrc).
  rewrite Forall_forall in Hall. destruct (Hall _ Hin) as (N & _).
  contradiction.
Qed.

(** The root of a constructed responder, under an absolute working
    directory: one or two slashes alone, or one or two slashes, plain
    components joined by single slashes, and one slash at the end. *)
Lemma root_shape (rt : runtime) (root : string) (kw : kwargs)
    (self : DirectoryApp.t) :
  isabs (getcwd rt) = true ->
  DirectoryApp.__init__ rt root kw = Return self ->
  exists k rc,
    (k = 1%nat \/ k = 2%nat)
    /\ Forall plain rc
    /\ ((rc = [] /\ DirectoryApp.path self = times sep k)
        \/ (rc <> []
            /\ DirectoryApp.path self
               = (times sep k ++ PyStr.join sep rc ++ "/")%string)).
Proof.
  intros Hcwd. unfold DirectoryApp.__init__, abspath.
  pose proof (abspath_argument (getcwd rt) root Hcwd) as Harg.
  set (q := if isabs root then root else join (getcwd rt) root) in *.
  destruct (normpath_absolute q Harg) as (rc & Hall & _ & ->).
  pose proof (initial_slashes_absolute q Harg) as Hk.
  set (k := initial_slashes q) in *. clearbody k.
  destruct rc as [| c rc].
  - assert (endswith (times sep k ++ PyStr.join sep []) sep = true) as ->
        by (destruct Hk as [-> | ->]; reflexivity).
    cbn [negb]. destruct (isdir rt _); [| discriminate].
    intros H. injection H as <-. exists k, []. cbn [DirectoryApp.path].
    split; [exact Hk |]. split; [constructor |]. left. split; [reflexivity |].
    apply append_empty_r.
  - rewrite (normal_no_trailing_sep k (c :: rc)) by (discriminate || exact Hall).
    cbn [negb]. destruct (isdir rt _); [| discriminate].
    intros H. injection H as <-. exists k, (c :: rc). cbn [DirectoryApp.path].
    split; [exact Hk |]. split; [exact Hall |]. right.
    split; [discriminate |]. apply append_assoc.
Qed.





(** X15.  Under an absolute working directory the root of a constructed
    responder is in normal form: one or two slashes alone, or one or two
    slashes, then components that are not empty, ["."] or [".."] joined by
    single slashes, then exactly one slash. *)
Theorem root_is_normal (rt : runtime) (root : string) (kw : kwargs)
    (self : DirectoryApp.t) :
  isabs (getcwd rt) = true ->
  DirectoryApp.__init__ rt root kw = Return self ->
  exists k rc,
    (k = 1%nat \/ k = 2%nat)
    /\ Forall plain rc
    /\ DirectoryApp.path self
       = match rc with
         | [] => times sep k
         | _ :: _ => (times sep k ++ PyStr.join sep rc ++ "/")%string
         end.
Proof.
  intros Hcwd Hinit.
  destruct (root_shape rt root kw self Hcwd Hinit)
    as (k & rc & Hk & Hall & [[-> Hp] | [Hrc Hp]]).
  - exists k, []. auto.
  - exists k, rc. split; [exact Hk |]. split; [exact Hall |].
    destruct rc; [congruence | exact Hp].
Qed.

Lemma root_is_normal_witness :
  exists k rc,
    (k = 1%nat \/ k = 2%nat)
    /\ Forall plain rc
    /\ DirectoryApp.path (DirectoryApp.mk "/srv/www/" [])
       = match rc with
         | [] => times sep k
         | _ :: _ => (times sep k ++ PyStr.join sep rc ++ "/")%string
         end.
Proof.
  exact (root_is_normal Sample.site "/srv/./www//" []
           (DirectoryApp.mk "/srv/www/" []) eq_refl eq_refl).
Defined.



End Paths.

(* ================================================================= *)
(** * What the directory responder opens *)

Section Confinement.
Import PyStr PosixPath.

Lemma append_inv_head (a x y : string) :
  (a ++ x)%string = (a ++ y)%string -> x = y.
Proof.
  induction a as [| c a IH]; cbn [append]; [auto |].
  intros H. injection H as H. exact (IH H).
Qed.

(** Splitting and joining again gives the string back. *)
Lemma join_split (s : string) : PyStr.join "/" (split s sep_char) = s.
Proof.
  induction s as [| c s IH]; [reflexivity |].
  cbn [split]. destruct (Ascii.eqb_spec c sep_char) as [-> | Hc].
  - destruct (split s sep_char) as [| w ws] eqn:E;
      [elim (split_not_nil _ _ E) |].
    rewrite join_cons, IH. reflexivity.
  - destruct (split s sep_char) as [| w ws] eqn:E;
      [elim (split_not_nil _ _ E) |].
    destruct ws as [| w' ws].
    + cbn in IH. subst w. reflexivity.
    + rewrite join_cons in *. cbn [append]. rewrite IH. reflexivity.
Qed.

Lemma not_absolute_head (c : ascii) (t : string) :
  startswith (String c t) sep = false -> c <> "/"%char.
Proof.
  unfold startswith, sep. cbn [prefix].
  destruct (ascii_dec "/" c) as [E | N]; [| congruence].
  rewrite prefix_empty. discriminate.
Qed.

(** In front of something that does not start with a slash, one or two
    slashes are the initial slashes. *)
Lemma initial_slashes_times (k : nat) (rel : string) :
  k = 1%nat \/ k = 2%nat ->
  startswith rel sep = false ->
  initial_slashes (times sep k ++ rel) = k.
Proof.
  intros Hk Hrel. destruct rel as [| c t].
  - destruct Hk as [-> | ->]; reflexivity.
  - apply not_absolute_head in Hrel.
    destruct Hk as [-> | ->]; unfold sep; cbn [times append].
    + apply initial_slashes_one. exact Hrel.
    + apply initial_slashes_two. exact Hrel.
Qed.

Lemma join_nonempty (comps : list string) :
  PyStr.join "/" comps <> "" -> comps <> [].
Proof.
  intros H ->. apply H. reflexivity.
Qed.

(** A candidate that is a regular file and starts with the root is the
    root followed by plain components: it lies below the root as a
    path. *)
Lemma below_root (rt : runtime) (root : string) (kw : kwargs)
    (self : DirectoryApp.t) (req : request) :
  isabs (getcwd rt) = true ->
  DirectoryApp.__init__ rt root kw = Return self ->
  isfile rt (DirectoryApp.candidate rt self req) = true ->
  startswith (DirectoryApp.candidate rt self req) (DirectoryApp.path self)
    = true ->
  exists rest,
    rest <> [] /\ Forall plain rest
    /\ DirectoryApp.candidate rt self req
       = (DirectoryApp.path self ++ PyStr.join "/" rest)%string.
Proof.
  intros Hcwd Hinit Hfile Hpre.
  destruct (init_inv _ _ _ _ Hinit) as (Hdir & _ & _).
  destruct (candidate_rooted rt root kw self req Hcwd Hinit) as [Hcand Habs].
  pose proof (lstrip_not_absolute (path_info req)) as Hrel.
  set (rel := lstrip (path_info req) "/") in *.
  set (cand := DirectoryApp.candidate rt self req) in *.
  destruct (startswith_app _ _ Hpre) as (y & Hy).
  assert (y <> "") as Hne.
  { intros ->. rewrite append_empty_r in Hy. rewrite Hy in Hfile.
    exact (isfile_not_isdir _ _ Hfile Hdir). }
  unfold isabs in Habs.
  destruct (normpath_absolute _ Habs) as (comps & Hall & _ & Hnorm).
  rewrite <- Hcand in Hnorm.
  destruct (root_shape rt root kw self Hcwd Hinit)
    as (k & rc & Hk & Hrc & [[-> Hp] | [Hnil Hp]]).
  - rewrite Hp in *. rewrite (initial_slashes_times k rel Hk Hrel) in Hnorm.
    rewrite Hnorm in Hy. apply append_inv_head in Hy. unfold sep in Hy.
    exists comps. split; [| split; [exact Hall |]].
    + apply join_nonempty. rewrite Hy. exact Hne.
    + rewrite Hnorm. reflexivity.
  - inversion Hrc as [| c rc' (Hc & _ & _ & Hfree) _]; subst; [congruence |].
    destruct c as [| a c]; [congruence |]. apply mem_first in Hfree.
    destruct (join_head a c rc') as (t & Ht). unfold sep in Hp. 
    assert (initial_slashes (DirectoryApp.path self ++ rel) = k) as Hslashes.
    { rewrite Hp, Ht.
      destruct Hk as [-> | ->]; unfold sep; cbn [times append].
      - apply initial_slashes_one. exact Hfree.
      - apply initial_slashes_two. exact Hfree. }
    rewrite Hslashes in Hnorm. pose proof Hy as Hy0. rewrite Hnorm, Hp in Hy.
    rewrite !append_assoc in Hy. apply append_inv_head in Hy.
    unfold sep in Hy.
    change ("/" ++ y)%string with (String sep_char y) in Hy.
    assert (comps <> []) as Hcomps
        by (apply join_nonempty; rewrite Hy, Ht; discriminate).
    pose proof (f_equal (fun x => split x sep_char) Hy) as Hsplit.
    cbn beta in Hsplit.
    rewrite split_app, (split_join comps Hcomps Hall),
      (split_join (String a c :: rc') Hnil Hrc) in Hsplit.
    exists (split y sep_char). split; [apply split_not_nil |]. split.
    + rewrite Hsplit in Hall. apply Forall_app in Hall. tauto.
    + rewrite join_split. exact Hy0.
Qed.

(** X10.  What the directory responder touches, for a constructed
    responder under an absolute working directory and with the default
    [make_fileapp]: every system call of a request is made on the
    candidate path, and the path handed to [open] is the root followed by
    one or more components joined by single slashes, none of them empty,
    ["."] or [".."]: as a path it lies below the root.  It is opened only
    after [os.path.isfile] answered true for it and only for GET or HEAD.
    Where the operating system is led by symbolic links under the root is
    not part of this statement. *)
Theorem directory_opens_only_below_root
    (rt : runtime) (root : string) (kw : kwargs) (self : DirectoryApp.t)
    (req : request) :
  isabs (getcwd rt) = true ->
  DirectoryApp.__init__ rt root kw = Return self ->
  let p := DirectoryApp.candidate rt self req in
  let calls :=
    snd (DirectoryApp.__call__ rt (DirectoryApp.make_fileapp rt) self req) in
  Forall (fun c => c = SysStat p \/ c = SysOpen p) calls
  /\ (forall q, In (SysOpen q) calls ->
        q = p /\ isfile rt p = true
        /\ (method req = "GET" \/ method req = "HEAD")
        /\ exists rest,
             rest <> [] /\ Forall plain rest
             /\ q = (DirectoryApp.path self ++ PyStr.join "/" rest)%string).
Proof.
  intros Hcwd Hinit p calls. subst calls.
  pose proof (below_root rt root kw self req Hcwd Hinit) as Hbelow.
  fold p in Hbelow.
  unfold DirectoryApp.__call__, DirectoryApp.dispatch. fold p.
  destruct (isfile rt p) eqn:Hfile; cbn [negb].
  2: { cbn [snd]. split; [repeat constructor; auto |].
       intros q [H | []]. discriminate. }
  destruct (startswith p (DirectoryApp.path self)) eqn:Hpre; cbn [negb].
  2: { cbn [snd]. split; [repeat constructor; auto |].
       intros q [H | []]. discriminate. }
  specialize (Hbelow eq_refl eq_refl).
  unfold DirectoryApp.make_fileapp.
  destruct (clash ["self"; "filename"] (DirectoryApp.fileapp_kw self)).
  { cbn [snd]. split; [repeat constructor; auto |].
    intros q [H | []]. discriminate. }
  unfold FileApp.__call__. rewrite fileapp_filename.
  destruct (FileApp.method_allowed (method req)) eqn:Hm; cbn [negb].
  2: { cbn [snd]. split; [repeat constructor; auto |].
       intros q [H | []]. discriminate. }
  apply method_allowed_iff in Hm.
  destruct (os_stat rt p) as [e | st];
    [destruct (is_io_or_os_error e)
    | destruct (open_rb rt p) as [e | contents];
      [destruct (is_io_or_os_error e) |]];
    cbn [snd]; (split; [repeat constructor; auto |]);
    intros q Hin; cbn [In] in Hin;
    repeat match goal with
           | H : _ \/ _ |- _ => destruct H
           | H : False |- _ => destruct H
           | H : SysStat _ = SysOpen _ |- _ => discriminate H
           | H : SysOpen _ = SysOpen _ |- _ => injection H as <-
           end; auto.
Qed.

Lemma directory_opens_only_below_root_witness :
  let app := DirectoryApp.mk "/srv/www/" [] in
  In (SysOpen "/srv/www/index.html")
     (snd (DirectoryApp.__call__ Sample.site
             (DirectoryApp.make_fileapp Sample.site) app
             (Sample.GET "/sub/../index.html")))
  /\ exists rest,
       rest <> [] /\ Forall plain rest
       /\ "/srv/www/index.html"
          = (DirectoryApp.path app ++ PyStr.join "/" rest)%string.
Proof.
  intros app.
  assert (In (SysOpen "/srv/www/index.html")
            (snd (DirectoryApp.__call__ Sample.site
                    (DirectoryApp.make_fileapp Sample.site) app
                    (Sample.GET "/sub/../index.html")))) as Hin
      by (vm_compute; auto).
  split; [exact Hin |].
  destruct (proj2 (directory_opens_only_below_root Sample.site "/srv/www" []
                     app (Sample.GET "/sub/../index.html") eq_refl eq_refl)
              _ Hin) as (_ & _ & _ & Hrest).
  exact Hrest.
Defined.

End Confinement.
